(** * The socket.io session and delivery engine of server.js

    A shallow embedding of the second server of [src/server.js] (the one
    backed by mongoose: schemas at lines 155-195, socket handlers at lines
    507-648).  The three mongoose collections and the set of connected
    sockets are explicit state; every handler is a function from the state
    before to the state after together with the list of [emit] calls it
    made, in the order of the source.

    Conventions of the model:
    - every handler runs to completion before the next event is taken (the
      interleavings at [await] are not modelled);
    - the database answers every query; the only failures of a write are
      the validation errors that the schemas declare;
    - ids are strings: the [_id] of a chat is the 24 lower-case hexadecimal
      digits that [toString()] gives, and [Chat.findById] casts the string
      it is given before it looks the chat up;
    - [_id] of a message is its position in the [messages] collection,
      which only grows;
    - [new Date()] is the argument [now] of a handler. *)

From Stdlib Require Import ZArith String List.
From stdpp Require Import base option list gmap sets strings pretty.

Open Scope string_scope.
Open Scope list_scope.
Open Scope nat_scope.

(** ** Documents (lines 155-195) *)

(** [status: { enum: ['sent', 'delivered', 'read'] }] *)
Inductive Status := sent | delivered | read.

Global Instance Status_eq_dec : EqDecision Status.
Proof. solve_decision. Defined.

(** UserSchema, the fields the socket layer reads or writes. *)
Record User := mkUser {
  username : string;
  online : bool;
  lastSeen : Z;
  socketId : option string
}.

Record LastMessage := mkLastMessage {
  lm_text : string;
  lm_sender : string;
  lm_timestamp : Z
}.

(** ChatSchema. *)
Record Chat := mkChat {
  participants : list string;
  lastMessage : option LastMessage
}.

(** MessageSchema. *)
Record Message := mkMessage {
  chatId : string;
  sender : string;
  text : string;
  messageType : string;
  status : Status;
  createdAt : Z
}.

(** ** Connections *)

(** A connected socket: [socket.userId], [socket.user.username] (the
    document read by [socketAuth]) and the rooms it has joined.  socket.io
    puts every socket in the room named by its own id. *)
Record Socket := mkSocket {
  userId : string;
  user_username : string;
  rooms : gset string
}.

(** A callback scheduled by [setTimeout] at line 574: the variables it
    closes over. *)
Record Timer := mkTimer {
  t_message : nat;
  t_socket : string;
  t_chatId : string
}.

Record Server := mkServer {
  users : gmap string User;
  chats : gmap string Chat;
  messages : list Message;
  sockets : gmap string Socket;
  timers : list Timer
}.

(** ** Outbound events *)

(** [formattedMessage], lines 555-567.  [fm_time] stands for the
    locale-formatted [createdAt]. *)
Record FormattedMessage := mkFormatted {
  fm_id : nat;
  fm_text : string;
  fm_sent : bool;
  fm_time : Z;
  fm_status : Status;
  fm_messageType : string;
  fm_sender : string;
  fm_senderId : string
}.

Inductive Event :=
  | error (message : string)
  | new_message (m : FormattedMessage)
  | message_sent (m : FormattedMessage)
  | message_status_updated (messageId : nat) (s : Status)
  | user_typing (uid uname : string)
  | user_stop_typing (uid : string)
  | incoming_call (callerId callerName chat : string) (callType : option string)
  | call_accepted (acceptedBy : string)
  | call_declined (declinedBy : string)
  | call_ended (endedBy : string)
  | user_offline (uid : string).

(** The three ways the handlers emit:
    [socket.emit], [socket.to(room).emit] and [socket.broadcast.emit]. *)
Inductive Emit :=
  | emit (sid : string) (e : Event)
  | to_emit (sid room : string) (e : Event)
  | broadcast_emit (sid : string) (e : Event).

Global Instance FormattedMessage_eq_dec : EqDecision FormattedMessage.
Proof. solve_decision. Defined.
Global Instance Event_eq_dec : EqDecision Event.
Proof. solve_decision. Defined.
Global Instance Emit_eq_dec : EqDecision Emit.
Proof. solve_decision. Defined.

(** The sockets an emit reaches: [socket.to(room)] reaches the connected
    sockets of [room] except [socket] itself, [socket.broadcast] every
    connected socket except [socket]. *)
Definition in_room (room : string) (sid : string) (st : Server) : bool :=
  match sockets st !! sid with
  | Some sk => bool_decide (room ∈ rooms sk)
  | None => false
  end.

Definition connected (st : Server) : list string :=
  elements (dom (sockets st)).

Definition room_others (st : Server) (sid room : string) : list string :=
  filter (λ x, x ≠ sid ∧ in_room room x st = true) (connected st).

Definition all_others (st : Server) (sid : string) : list string :=
  filter (λ x, x ≠ sid) (connected st).

Definition deliver (st : Server) (op : Emit) : list (string * Event) :=
  match op with
  | emit sid e => [(sid, e)]
  | to_emit sid room e => (λ x, (x, e)) <$> room_others st sid room
  | broadcast_emit sid e => (λ x, (x, e)) <$> all_others st sid
  end.

Definition deliveries (st : Server) (ops : list Emit) : list (string * Event) :=
  ops ≫= deliver st.

(** ** What a handler leaves behind *)

(** The state after the handler, the emits it made in order, and whether an
    exception left the handler uncaught. *)
Record Result := mkResult {
  server : Server;
  emitted : list Emit;
  uncaught : bool
}.

Definition returned (st : Server) (ops : list Emit) : Result :=
  mkResult st ops false.

Definition threw (st : Server) : Result :=
  mkResult st [] true.

(** ** Collection updates *)

Definition with_users (f : gmap string User → gmap string User) (st : Server) : Server :=
  mkServer (f (users st)) (chats st) (messages st) (sockets st) (timers st).

Definition with_chats (f : gmap string Chat → gmap string Chat) (st : Server) : Server :=
  mkServer (users st) (f (chats st)) (messages st) (sockets st) (timers st).

Definition with_messages (f : list Message → list Message) (st : Server) : Server :=
  mkServer (users st) (chats st) (f (messages st)) (sockets st) (timers st).

Definition with_sockets (f : gmap string Socket → gmap string Socket) (st : Server) : Server :=
  mkServer (users st) (chats st) (messages st) (f (sockets st)) (timers st).

Definition with_timers (f : list Timer → list Timer) (st : Server) : Server :=
  mkServer (users st) (chats st) (messages st) (sockets st) (f (timers st)).

(** [User.findByIdAndUpdate(id, update)]: nothing happens when no document
    has that id. *)
Definition User_findByIdAndUpdate (uid : string) (f : User → User) : Server → Server :=
  with_users (alter f uid).

Definition set_status (s : Status) (m : Message) : Message :=
  mkMessage (chatId m) (sender m) (text m) (messageType m) s (createdAt m).

(** [Message.findByIdAndUpdate(id, { status })] *)
Definition Message_findByIdAndUpdate (id : nat) (s : Status) : Server → Server :=
  with_messages (alter (set_status s) id).

(** [Chat.find({ participants: userId })], as the set of the ids found. *)
Definition Chat_find (uid : string) (st : Server) : gset string :=
  dom (filter (λ kv, uid ∈ participants kv.2) (chats st)).

(** ** Authentication and connection (lines 219-233 and 509-522) *)

(** [decoded] is [jwt.verify(token, JWT_SECRET).userId], or [None] when
    [jwt.verify] throws. *)
Definition socketAuth (decoded : option string) (st : Server) : option (string * User) :=
  uid ← decoded;
  u ← users st !! uid;
  Some (uid, u).

Definition connection (sid uid : string) (u : User) (st : Server) : Result :=
  let st1 := User_findByIdAndUpdate uid
               (λ r, mkUser (username r) true (lastSeen r) (Some sid)) st in
  let userChats := Chat_find uid st1 in
  returned
    (with_sockets (insert sid (mkSocket uid (username u) ({[sid]} ∪ userChats))) st1)
    [].

(** ** ObjectId casts

    [Chat.findById(chatId)] and [new Message({ chatId })] cast the string
    of the payload to an ObjectId.  A string of 24 hexadecimal digits casts,
    whatever the case of its letters; for any other string the cast throws
    a CastError (this is the cast of the current driver; older versions
    of the driver cast a string of 12 characters as well).  [toString()]
    of an ObjectId writes the digits in lower case, and that is how the ids
    of the stored documents are spelled. *)
Definition is_hex (c : Ascii.ascii) : bool :=
  let n := Ascii.nat_of_ascii c in
  ((48 <=? n) && (n <=? 57)) || ((65 <=? n) && (n <=? 70)) ||
  ((97 <=? n) && (n <=? 102)).

Definition lower (c : Ascii.ascii) : Ascii.ascii :=
  let n := Ascii.nat_of_ascii c in
  if (65 <=? n) && (n <=? 90) then Ascii.ascii_of_nat (n + 32) else c.

Fixpoint all_hex (s : string) : bool :=
  match s with
  | EmptyString => true
  | String c s' => is_hex c && all_hex s'
  end.

Fixpoint lower_case (s : string) : string :=
  match s with
  | EmptyString => EmptyString
  | String c s' => String (lower c) (lower_case s')
  end.

Definition ObjectId_cast (s : string) : option string :=
  if (String.length s =? 24) && all_hex s then Some (lower_case s) else None.

(** ** send_message (lines 525-586) *)

Record SendData := mkSendData {
  d_chatId : string;
  d_text : option string;
  d_messageType : option string
}.

(** The validators that [message.save()] runs for the paths the handler
    fills from the payload: [text: { type: String, required: true }] (the
    required validator of a String path accepts only a string of non-zero
    length) and the [enum] of [messageType]. *)
Definition text_required (t : option string) : option string :=
  match t with
  | Some s => if bool_decide (s = "") then None else Some s
  | None => None
  end.

Definition messageType_enum : list string := ["text"; "call"; "system"].

Definition Message_validate (t : option string) (mt : string) : option string :=
  s ← text_required t;
  if bool_decide (mt ∈ messageType_enum) then Some s else None.

Definition access_denied (sid : string) (st : Server) : Result :=
  returned st [emit sid (error "Access denied")].

(** The [catch] block at lines 582-585. *)
Definition failed_to_send (sid : string) (st : Server) : Result :=
  returned st [emit sid (error "Failed to send message")].

Definition formattedMessage (id : nat) (m : Message) (senderName : string)
    (sk : Socket) : FormattedMessage :=
  mkFormatted id (text m) false (createdAt m) delivered (messageType m)
    senderName (userId sk).

(** [Chat.findById] looks the chat up under the cast id and the message
    stores the cast id; [socket.to(chatId)] at lines 570 and 576 is given
    the string of the payload as it came.  A payload that is [undefined]
    and a [chatId] that does not cast both throw inside the [try]. *)
Definition send_message (now : Z) (sid : string) (sk : Socket)
    (data : option SendData) (st : Server) : Result :=
  match data with
  | None => failed_to_send sid st
  | Some d =>
    let messageType := default "text" (d_messageType d) in
    match ObjectId_cast (d_chatId d) with
    | None => failed_to_send sid st
    | Some oid =>
      match chats st !! oid with
      | None => access_denied sid st
      | Some chat =>
        if bool_decide (userId sk ∈ participants chat) then
          match Message_validate (d_text d) messageType with
          | None => failed_to_send sid st
          | Some txt =>
            let id := length (messages st) in
            let message :=
              mkMessage oid (userId sk) txt messageType sent now in
            let st1 := with_messages (λ ms, ms ++ [message]) st in
            let populated := username <$> users st1 !! userId sk in
            let st2 :=
              with_chats
                (insert oid
                   (mkChat (participants chat)
                      (Some (mkLastMessage txt (userId sk) now)))) st1 in
            match populated with
            | None => failed_to_send sid st2
            | Some senderName =>
              let fm := formattedMessage id message senderName sk in
              returned
                (with_timers (λ ts, ts ++ [mkTimer id sid (d_chatId d)]) st2)
                [to_emit sid (d_chatId d) (new_message fm);
                 emit sid (message_sent fm)]
            end
          end
        else access_denied sid st
      end
    end
  end.

(** The callback of [setTimeout] (lines 574-580). *)
Definition status_timeout (t : Timer) (st : Server) : Result :=
  returned
    (Message_findByIdAndUpdate (t_message t) delivered st)
    [to_emit (t_socket t) (t_chatId t)
       (message_status_updated (t_message t) delivered)].

(** ** Typing and call relays (lines 589-630) *)

Record ChatData := mkChatData { c_chatId : string }.

Record CallData := mkCallData {
  call_chatId : string;
  call_callType : option string
}.

Definition typing_start (sid : string) (sk : Socket) (data : option ChatData)
    (st : Server) : Result :=
  match data with
  | None => threw st
  | Some d =>
    returned st
      [to_emit sid (c_chatId d) (user_typing (userId sk) (user_username sk))]
  end.

Definition typing_stop (sid : string) (sk : Socket) (data : option ChatData)
    (st : Server) : Result :=
  match data with
  | None => threw st
  | Some d =>
    returned st [to_emit sid (c_chatId d) (user_stop_typing (userId sk))]
  end.

Definition start_call (sid : string) (sk : Socket) (data : option CallData)
    (st : Server) : Result :=
  match data with
  | None => threw st
  | Some d =>
    returned st
      [to_emit sid (call_chatId d)
         (incoming_call (userId sk) (user_username sk) (call_chatId d)
            (call_callType d))]
  end.

Definition accept_call (sid : string) (sk : Socket) (data : option ChatData)
    (st : Server) : Result :=
  match data with
  | None => threw st
  | Some d => returned st [to_emit sid (c_chatId d) (call_accepted (userId sk))]
  end.

Definition decline_call (sid : string) (sk : Socket) (data : option ChatData)
    (st : Server) : Result :=
  match data with
  | None => threw st
  | Some d => returned st [to_emit sid (c_chatId d) (call_declined (userId sk))]
  end.

Definition end_call (sid : string) (sk : Socket) (data : option ChatData)
    (st : Server) : Result :=
  match data with
  | None => threw st
  | Some d => returned st [to_emit sid (c_chatId d) (call_ended (userId sk))]
  end.

(** ** disconnect (lines 633-647) *)

(** socket.io has taken the socket out of its rooms and out of the
    namespace when the handler runs. *)
Definition disconnect (now : Z) (sid : string) (sk : Socket) (st : Server) : Result :=
  let st0 := with_sockets (delete sid) st in
  let st1 := User_findByIdAndUpdate (userId sk)
               (λ r, mkUser (username r) false now None) st0 in
  returned st1 [broadcast_emit sid (user_offline (userId sk))].

(** ** The event loop *)

Inductive Inbound :=
  | on_send_message (data : option SendData)
  | on_typing_start (data : option ChatData)
  | on_typing_stop (data : option ChatData)
  | on_start_call (data : option CallData)
  | on_accept_call (data : option ChatData)
  | on_decline_call (data : option ChatData)
  | on_end_call (data : option ChatData).

Definition handle (now : Z) (sid : string) (sk : Socket) (ev : Inbound)
    (st : Server) : Result :=
  match ev with
  | on_send_message data => send_message now sid sk data st
  | on_typing_start data => typing_start sid sk data st
  | on_typing_stop data => typing_stop sid sk data st
  | on_start_call data => start_call sid sk data st
  | on_accept_call data => accept_call sid sk data st
  | on_decline_call data => decline_call sid sk data st
  | on_end_call data => end_call sid sk data st
  end.

(** What the process can do next: accept a connection, take an event or a
    disconnect of a connected socket, run the oldest pending timer (all
    timers have the same delay, so they run in the order they were set). *)
Inductive Label :=
  | Connect (sid : string) (decoded : option string)
  | Receive (now : Z) (sid : string) (ev : Inbound)
  | Disconnect (now : Z) (sid : string)
  | Timeout.

Definition idle (st : Server) : Result := returned st [].

Definition step (l : Label) (st : Server) : Result :=
  match l with
  | Connect sid decoded =>
    match socketAuth decoded st with
    | Some (uid, u) => connection sid uid u st
    | None => idle st
    end
  | Receive now sid ev =>
    match sockets st !! sid with
    | Some sk => handle now sid sk ev st
    | None => idle st
    end
  | Disconnect now sid =>
    match sockets st !! sid with
    | Some sk => disconnect now sid sk st
    | None => idle st
    end
  | Timeout =>
    match timers st with
    | t :: ts => status_timeout t (with_timers (λ _, ts) st)
    | [] => idle st
    end
  end.

(** socket.io gives a new connection an id that no connected socket has;
    such an id is 20 characters long and never the 24 hexadecimal digits of
    a chat's ObjectId. *)
Definition enabled (l : Label) (st : Server) : Prop :=
  match l with
  | Connect sid _ =>
    sockets st !! sid = None ∧ chats st !! sid = None ∧ ObjectId_cast sid = None
  | _ => True
  end.

Fixpoint run (ls : list Label) (st : Server) : Server :=
  match ls with
  | [] => st
  | l :: ls' => run ls' (server (step l st))
  end.

Fixpoint valid_run (ls : list Label) (st : Server) : Prop :=
  match ls with
  | [] => True
  | l :: ls' => enabled l st ∧ valid_run ls' (server (step l st))
  end.

(** ** Vocabulary of the statements *)

(** The members of the chat that a string names, as [send_message] reads
    them: the [participants] of the document under the cast id, nobody when
    the string does not cast or there is no such document. *)
Definition membersOf (c : string) (st : Server) : list string :=
  match ObjectId_cast c with
  | Some oid =>
    match chats st !! oid with
    | Some chat => participants chat
    | None => []
    end
  | None => []
  end.

Definition user_of (st : Server) (sid : string) : option string :=
  userId <$> sockets st !! sid.






(** The rank of a status in [sent, delivered, read]. *)
Definition rank (s : Status) : nat :=
  match s with sent => 0 | delivered => 1 | read => 2 end.

(** The presence invariant of a user document: [online] only with a
    [socketId] of a connected socket of that user. *)
Definition presence_ok (st : Server) (uid : string) (u : User) : Prop :=
  online u = true →
  ∃ sid sk, socketId u = Some sid ∧ sockets st !! sid = Some sk ∧ userId sk = uid.

Definition presence_inv (st : Server) : Prop :=
  ∀ uid u, users st !! uid = Some u → presence_ok st uid u.

(** No pending timer is for a message that is already [read]. *)
Definition timers_unread (st : Server) : Prop :=
  ∀ t m, t ∈ timers st → messages st !! t_message t = Some m → status m ≠ read.


(** The statuses that message [id] shows in the states of a run. *)
Fixpoint observed (id : nat) (ls : list Label) (st : Server) : list Status :=
  match ls with
  | [] => []
  | l :: ls' =>
    let st' := server (step l st) in
    match messages st' !! id with
    | Some m => status m :: observed id ls' st'
    | None => observed id ls' st'
    end
  end.

(** Adjacent repetitions removed. *)
Fixpoint changes (l : list Status) : list Status :=
  match l with
  | [] => []
  | s :: l' =>
    match l' with
    | [] => [s]
    | s' :: _ => if decide (s = s') then changes l' else s :: changes l'
    end
  end.

(** The successful path of [send_message], piece by piece: the document
    that [message.save()] stores, the state once message and chat are
    saved, the state once the timer is set, and the formatted message that
    is emitted. *)
Definition saved (now : Z) (sk : Socket) (oid : string) (d : SendData)
    (txt : string) : Message :=
  mkMessage oid (userId sk) txt (default "text" (d_messageType d)) sent now.

Definition after_save (now : Z) (sk : Socket) (st : Server) (oid : string)
    (d : SendData) (chat : Chat) (txt : string) : Server :=
  with_chats
    (insert oid
       (mkChat (participants chat) (Some (mkLastMessage txt (userId sk) now))))
    (with_messages (λ ms, ms ++ [saved now sk oid d txt]) st).

Definition after_send (now : Z) (sid : string) (sk : Socket) (st : Server)
    (oid : string) (d : SendData) (chat : Chat) (txt : string) : Server :=
  with_timers (λ ts, ts ++ [mkTimer (length (messages st)) sid (d_chatId d)])
    (after_save now sk st oid d chat txt).

Definition sent_event (now : Z) (sk : Socket) (st : Server) (oid : string)
    (d : SendData) (txt : string) (u : User) : FormattedMessage :=
  formattedMessage (length (messages st)) (saved now sk oid d txt) (username u) sk.

(** A call event of some socket that carries a payload. *)
Definition is_call (l : Label) : bool :=
  match l with
  | Receive _ _ (on_start_call (Some _))
  | Receive _ _ (on_accept_call (Some _))
  | Receive _ _ (on_decline_call (Some _))
  | Receive _ _ (on_end_call (Some _)) => true
  | _ => false
  end.

(** The rank of the stored status of message [id], 0 when there is no such
    message. *)
Definition floor (id : nat) (st : Server) : nat :=
  match messages st !! id with
  | Some m => rank (status m)
  | None => 0
  end.

(** [l] never steps down in rank and starts at rank [k] or above. *)
Fixpoint nondecreasing_from (k : nat) (l : list Status) : Prop :=
  match l with
  | [] => True
  | s :: l' => k ≤ rank s ∧ nondecreasing_from (rank s) l'
  end.

(** ** A small fixed scenario *)

Module Scenario.

Definition offline (name : string) : User := mkUser name false 0 None.

(** The ids of two chats, two ids that no chat has, and the first of them
    as a client may spell it. *)
Definition c1 : string := "c1c1c1c1c1c1c1c1c1c1c1c1".
Definition c2 : string := "c2c2c2c2c2c2c2c2c2c2c2c2".
Definition c9 : string := "c9c9c9c9c9c9c9c9c9c9c9c9".
Definition C1 : string := "C1C1C1C1C1C1C1C1C1C1C1C1".

(** Three users; [c1] is a group of all three, [c2] is private to the
    first two. *)
Definition db : Server :=
  mkServer
    (<["u1" := offline "alice"]> (<["u2" := offline "bob"]>
       (<["u3" := offline "carol"]> ∅)))
    (<[c1 := mkChat ["u1"; "u2"; "u3"] None]>
       (<[c2 := mkChat ["u1"; "u2"] None]> ∅))
    [] ∅ [].

Definition all_connected : Server :=
  run [Connect "s1" (Some "u1"); Connect "s2" (Some "u2");
       Connect "s3" (Some "u3")] db.


Definition s1 : Socket := mkSocket "u1" "alice" {["s1"; c1; c2]}.
Definition s2 : Socket := mkSocket "u2" "bob" {["s2"; c1; c2]}.
Definition s3 : Socket := mkSocket "u3" "carol" {["s3"; c1]}.

Definition hi (c : string) : option SendData :=
  Some (mkSendData c (Some "hi") None).

(** Alice has sent "hi" to [c2] and, before the timer of the send has run,
    the message is marked [read] through the update that the timer itself
    uses.  No handler of the file does this; the mark comes from outside. *)
Definition read_early : Server :=
  Message_findByIdAndUpdate 0 read
    (server (step (Receive 7 "s1" (on_send_message (hi c2))) all_connected)).

End Scenario.

(** ** Further vocabulary for the socket layer *)

(** Two message documents that differ at most in [status]. *)
Definition same_content (m m' : Message) : Prop :=
  chatId m' = chatId m ∧ sender m' = sender m ∧ text m' = text m ∧
  messageType m' = messageType m ∧ createdAt m' = createdAt m.

(** The user of every connected socket has a document. *)
Definition senders_known (st : Server) : Prop :=
  ∀ sid sk, sockets st !! sid = Some sk → is_Some (users st !! userId sk).

(** No socket id is a chat id, and a connected socket sits in its own room
    and in the rooms of the chats its user participates in, no others. *)
Definition rooms_follow_chats (st : Server) : Prop :=
  ∀ x skx, sockets st !! x = Some skx →
    chats st !! x = None ∧
    ∀ c, c ∈ rooms skx ↔
         c = x ∨ ∃ chat, chats st !! c = Some chat ∧ userId skx ∈ participants chat.

(** The ids of the stored chats are spelled as [toString()] spells them,
    and no socket id is a string that casts to an ObjectId. *)
Definition ids_canonical (st : Server) : Prop :=
  (∀ c chat, chats st !! c = Some chat → ObjectId_cast c = Some c) ∧
  (∀ x skx, sockets st !! x = Some skx → ObjectId_cast x = None).

(** What makes [send_message] store a message. *)
Definition sendable (sk : Socket) (data : option SendData) (st : Server) : Prop :=
  ∃ d oid chat txt,
    data = Some d ∧ ObjectId_cast (d_chatId d) = Some oid ∧
    chats st !! oid = Some chat ∧
    userId sk ∈ participants chat ∧
    d_text d = Some txt ∧ txt ≠ "" ∧
    default "text" (d_messageType d) ∈ ["text"; "call"; "system"].

(** * The HTTP side of the second server (lines 197-216 and 290-464)

    The routes read two more fields of a chat document and three more of a
    user document than the socket layer does; they are kept beside the
    chats and users of [Server], under the same ids.  A chat without an
    entry has the defaults of the schema.  [jwt.verify], [jwt.sign] and
    [bcrypt.compare] are parameters.  Bodies are taken to be well typed.
    The colours, the formatted time and the defaulted timestamp of a new
    chat's [lastMessage] are left out. *)

Record ChatMeta := mkChatMeta {
  isGroup : bool;
  name : option string
}.

Record Account := mkAccount {
  email : string;
  password : string;
  avatar : string
}.

Record Api := mkApi {
  engine : Server;
  metas : gmap string ChatMeta;
  accounts : gmap string Account
}.

Definition meta_of (c : string) (a : Api) : ChatMeta :=
  default (mkChatMeta false None) (metas a !! c).

(** The space character, code 32. *)
Definition space : Ascii.ascii :=
  Ascii.Ascii false false false false false true false false.

(** [s.split(' ')] *)
Fixpoint split_space (s : string) : list string :=
  match s with
  | EmptyString => [EmptyString]
  | String c s' =>
    match split_space s' with
    | w :: ws => if Ascii.eqb c space then EmptyString :: w :: ws else String c w :: ws
    | [] => []
    end
  end.

Fixpoint space_free (s : string) : bool :=
  match s with
  | EmptyString => true
  | String c s' => negb (Ascii.eqb c space) && space_free s'
  end.

(** What a middleware or a route answers: a status with an error, or the
    value it passes on. *)
Inductive Answer (A : Type) :=
  | rejected (code : nat) (reason : string)
  | ok (a : A).
Arguments rejected {A} code reason.
Arguments ok {A} a.

(** The user summary of the login response, and the populated participant
    of a chat response. *)
Record Profile := mkProfile {
  p_id : string;
  p_username : string;
  p_email : option string;
  p_avatar : option string;
  p_online : bool
}.

(** [formattedChat] of lines 439-456. *)
Record FormattedChat := mkFormattedChat {
  fc_id : string;
  fc_name : option string;
  fc_isGroup : bool;
  fc_participants : list Profile;
  fc_lastMessage : string;
  fc_unreadCount : nat;
  fc_online : bool
}.

(** The body of [POST /api/chats]: [participantId] is one id, or a list of
    ids when [isGroup] is set. *)
Inductive ChatBody :=
  | private_chat (participantId : string)
  | group_chat (participantId : list string) (name : option string).

Section Http.

Variable verify : string → option string.
Variable sign : string → string.
Variable compare : string → string → bool.

(** Lines 201-216.  [verify token] is the [userId] of the payload, [None]
    when [jwt.verify] reports an error. *)
Definition authenticateToken (authorization : option string) : Answer string :=
  let token := authorization ≫= (λ authHeader, split_space authHeader !! 1) in
  match token with
  | Some (String c t) =>
    match verify (String c t) with
    | Some userId => ok userId
    | None => rejected 403 "Invalid token"
    end
  | _ => rejected 401 "Access token required"
  end.

(** [User.findOne({ email })]: the id of a user document with that email. *)
Definition User_findOne (e : string) (a : Api) : option string :=
  fst <$> head (filter (λ kv, email kv.2 = e ∧ is_Some (users (engine a) !! kv.1))
                  (map_to_list (accounts a))).

(** Lines 291-329, without the [catch]. *)
Definition api_login (e p : string) (a : Api) : Api * Answer (string * Profile) :=
  match User_findOne e a with
  | None => (a, rejected 400 "Invalid credentials")
  | Some uid =>
    match users (engine a) !! uid, accounts a !! uid with
    | Some user, Some acc =>
      if compare p (password acc) then
        (mkApi
           (with_users
              (alter (λ r, mkUser (username r) true (lastSeen r) (socketId r)) uid)
              (engine a))
           (metas a) (accounts a),
         ok (sign uid,
             mkProfile uid (username user) (Some (email acc)) (Some (avatar acc))
               true))
      else (a, rejected 400 "Invalid credentials")
    | _, _ => (a, rejected 400 "Invalid credentials")
    end
  end.

(** The filter of [Chat.findOne] at lines 420-423:
    [{ participants: { $all: [a, b], $size: 2 }, isGroup: false }]. *)
Definition private_between (x y : string) (a : Api) (kv : string * Chat) : Prop :=
  length (participants kv.2) = 2 ∧ x ∈ participants kv.2 ∧ y ∈ participants kv.2 ∧
  isGroup (meta_of kv.1 a) = false.

Global Instance private_between_dec x y a kv : Decision (private_between x y a kv).
Proof. unfold private_between. apply _. Defined.

Definition Chat_findOne (x y : string) (a : Api) : option (string * Chat) :=
  head (filter (private_between x y a) (map_to_list (chats (engine a)))).

(** [chat.populate('participants', 'username email avatar online')]: the
    ids that have a user document, with the fields selected. *)
Definition populate (a : Api) (ps : list string) : list Profile :=
  omap (λ uid,
          (λ u, mkProfile uid (username u) (email <$> accounts a !! uid)
                  (avatar <$> accounts a !! uid) (online u))
            <$> users (engine a) !! uid) ps.

Definition formattedChat (me : string) (c : string) (chat : Chat) (a : Api)
    : FormattedChat :=
  let ps := populate a (participants chat) in
  let otherParticipant := head (filter (λ p, p_id p ≠ me) ps) in
  let group := isGroup (meta_of c a) in
  mkFormattedChat c
    (if group then name (meta_of c a)
     else Some (default "Unknown"
                  (otherParticipant ≫= (λ p,
                     if bool_decide (p_username p = "") then None
                     else Some (p_username p)))))
    group ps
    (default "" (lm_text <$> lastMessage chat))
    0
    (if group then true else default false (p_online <$> otherParticipant)).

Definition save_chat (c : string) (chat : Chat) (m : ChatMeta) (a : Api) : Api :=
  mkApi (with_chats (insert c chat) (engine a)) (<[c := m]> (metas a)) (accounts a).

(** Lines 404-464, without the [catch]; [fresh] is the [_id] that a new
    document gets. *)
Definition api_chats (fresh : string) (me : string) (body : ChatBody) (a : Api)
    : Api * FormattedChat :=
  match body with
  | group_chat participantId nm =>
    let chat := mkChat (me :: participantId) None in
    let a' := save_chat fresh chat (mkChatMeta true nm) a in
    (a', formattedChat me fresh chat a')
  | private_chat participantId =>
    match Chat_findOne me participantId a with
    | Some (c, chat) => (a, formattedChat me c chat a)
    | None =>
      let chat := mkChat [me; participantId] None in
      let a' := save_chat fresh chat (mkChatMeta false None) a in
      (a', formattedChat me fresh chat a')
    end
  end.

End Http.

(** A user is online in the documents although no connected socket is the
    user's. *)
Definition online_without_connection (st : Server) (uid : string) : Prop :=
  (∃ u, users st !! uid = Some u ∧ online u = true) ∧
  ∀ x skx, sockets st !! x = Some skx → userId skx ≠ uid.

(** * The in-memory server (lines 1-124 of server.js)

    The first program of the file keeps its users and messages in two
    [Map]s.  A [Map] is an association list in insertion order: [set] on a
    key that is there replaces the value in place, on a new key it adds the
    entry at the end, and [values()] lists the values in that order. *)

Module Legacy.

Definition Map_get {V} (k : string) (m : list (string * V)) : option V :=
  snd <$> head (filter (λ kv, kv.1 = k) m).

Definition Map_has {V} (k : string) (m : list (string * V)) : bool :=
  bool_decide (is_Some (Map_get k m)).

Fixpoint Map_set {V} (k : string) (v : V) (m : list (string * V)) : list (string * V) :=
  match m with
  | [] => [(k, v)]
  | (k', v') :: m' =>
    if decide (k' = k) then (k, v) :: m' else (k', v') :: Map_set k v m'
  end.

Definition Map_values {V} (m : list (string * V)) : list V := m.*2.

(** The user objects of lines 27-41 and 54-59; [socketId = None] is a
    missing property. *)
Record User := mkUser {
  id : string;
  username : string;
  email : string;
  password : string;
  online : bool;
  socketId : option string
}.

(** [messageData] with [timestamp] and [id] added (lines 90-94).  The
    server reads [chatId] and [recipientId]; [body] stands for the rest of
    what the client sent. *)
Record Message := mkMessage {
  chatId : string;
  recipientId : string;
  body : string;
  timestamp : Z;
  msg_id : string
}.

Record Server := mkServer {
  users : list (string * User);
  messages : list (string * list Message);
  sockets : gset string
}.

Inductive Event :=
  | registerError (msg : string)
  | registered (u : User)
  | loggedIn (u : User)
  | loginError (msg : string)
  | contactResults (results : list User)
  | newMessage (m : Message)
  | messageSent (m : Message).

(** [socket.emit] and [io.to(room).emit]. *)
Inductive Emit :=
  | emit (sid : string) (e : Event)
  | io_to_emit (room : option string) (e : Event).

(** [io.to(room)] reaches the socket whose id is [room] when it is
    connected: no handler of this program joins a room, so the rooms are
    the sockets' own. *)
Definition deliver (st : Server) (op : Emit) : list (string * Event) :=
  match op with
  | emit sid e => [(sid, e)]
  | io_to_emit (Some room) e =>
    if bool_decide (room ∈ sockets st) then [(room, e)] else []
  | io_to_emit None e => []
  end.

Definition deliveries (st : Server) (ops : list Emit) : list (string * Event) :=
  ops ≫= deliver st.

(** Lines 22-41. *)
Definition initial : Server :=
  mkServer
    [("test@example.com",
      mkUser "user1" "TestUser" "test@example.com" "password" false None);
     ("alice@example.com",
      mkUser "user2" "Alice" "alice@example.com" "123456" false None)]
    [] ∅.

Record UserData := mkUserData {
  ud_username : string;
  ud_email : string;
  ud_password : string
}.

Record Credentials := mkCredentials {
  cr_email : string;
  cr_password : string
}.

Record MessageData := mkMessageData {
  md_chatId : string;
  md_recipientId : string;
  md_body : string
}.

Definition with_users (f : list (string * User) → list (string * User))
    (st : Server) : Server :=
  mkServer (f (users st)) (messages st) (sockets st).

Definition with_messages
    (f : list (string * list Message) → list (string * list Message))
    (st : Server) : Server :=
  mkServer (users st) (f (messages st)) (sockets st).

(** Lines 48-64. *)
Definition register (sid : string) (userData : UserData) (st : Server)
    : Server * list Emit :=
  if Map_has (ud_email userData) (users st) then
    (st, [emit sid (registerError "User already exists")])
  else
    let newUser :=
      mkUser ("user" +:+ pretty (length (users st) + 1))
        (ud_username userData) (ud_email userData) (ud_password userData)
        true (Some sid) in
    (with_users (Map_set (ud_email userData) newUser) st,
     [emit sid (registered newUser)]).

(** Lines 67-78.  The assignments to [user.online] and [user.socketId]
    change the object that the map holds. *)
Definition login (sid : string) (credentials : Credentials) (st : Server)
    : Server * list Emit :=
  match Map_get (cr_email credentials) (users st) with
  | Some user =>
    if bool_decide (password user = cr_password credentials) then
      let user' :=
        mkUser (id user) (username user) (email user) (password user)
          true (Some sid) in
      (with_users (Map_set (cr_email credentials) user') st,
       [emit sid (loggedIn user')])
    else (st, [emit sid (loginError "Invalid credentials")])
  | None => (st, [emit sid (loginError "Invalid credentials")])
  end.

(** [s.includes(q)]: [q] occurs in [s]. *)
Fixpoint includes (q s : string) : bool :=
  String.prefix q s ||
  match s with
  | EmptyString => false
  | String _ s' => includes q s'
  end.

(** Lines 81-86. *)
Definition searchContacts (sid : string) (query : string) (st : Server)
    : Server * list Emit :=
  let results :=
    filter (λ user, includes query (email user) || includes query (username user) = true)
      (Map_values (users st)) in
  (st, [emit sid (contactResults results)]).

(** Lines 89-109. *)
Definition sendMessage (now : Z) (sid : string) (messageData : MessageData)
    (st : Server) : Server * list Emit :=
  let message :=
    mkMessage (md_chatId messageData) (md_recipientId messageData)
      (md_body messageData) now (pretty now) in
  let stored :=
    if Map_has (md_chatId messageData) (messages st) then messages st
    else Map_set (md_chatId messageData) [] (messages st) in
  let chat := default [] (Map_get (md_chatId messageData) stored) in
  let st' :=
    with_messages (λ _, Map_set (md_chatId messageData) (chat ++ [message]) stored)
      st in
  let recipient :=
    head (filter (λ u, id u = md_recipientId messageData) (Map_values (users st))) in
  let toRecipient :=
    match recipient with
    | Some r =>
      if online r then [io_to_emit (socketId r) (newMessage message)] else []
    | None => []
    end in
  (st', toRecipient ++ [emit sid (messageSent message)]).

(** The first position of the list at which [P] holds, changed by [f]. *)
Fixpoint update_first {A} (P : A → bool) (f : A → A) (l : list A) : list A :=
  match l with
  | [] => []
  | x :: l' => if P x then f x :: l' else x :: update_first P f l'
  end.

(** Lines 112-118: [find] answers the first user, in the order of the map,
    whose [socketId] is the socket's; that object is set offline. *)
Definition disconnect (sid : string) (st : Server) : Server * list Emit :=
  let st0 := mkServer (users st) (messages st) (sockets st ∖ {[sid]}) in
  (with_users
     (update_first (λ kv, bool_decide (socketId kv.2 = Some sid))
        (λ kv, (kv.1, mkUser (id kv.2) (username kv.2) (email kv.2)
                        (password kv.2) false (socketId kv.2)))) st0,
   []).

Inductive Inbound :=
  | on_register (userData : UserData)
  | on_login (credentials : Credentials)
  | on_searchContacts (query : string)
  | on_sendMessage (messageData : MessageData).

Inductive Label :=
  | Connect (sid : string)
  | Receive (now : Z) (sid : string) (ev : Inbound)
  | Disconnect (sid : string).

(** Events and the disconnect come from connected sockets only. *)
Definition step (l : Label) (st : Server) : Server * list Emit :=
  match l with
  | Connect sid => (mkServer (users st) (messages st) ({[sid]} ∪ sockets st), [])
  | Receive now sid ev =>
    if bool_decide (sid ∈ sockets st) then
      match ev with
      | on_register userData => register sid userData st
      | on_login credentials => login sid credentials st
      | on_searchContacts query => searchContacts sid query st
      | on_sendMessage messageData => sendMessage now sid messageData st
      end
    else (st, [])
  | Disconnect sid =>
    if bool_decide (sid ∈ sockets st) then disconnect sid st else (st, [])
  end.

Fixpoint run (ls : list Label) (st : Server) : Server :=
  match ls with
  | [] => st
  | l :: ls' => run ls' (step l st).1
  end.

(** An online user has a socket id. *)
Definition online_has_socket (st : Server) : Prop :=
  ∀ k u, (k, u) ∈ users st → online u = true → is_Some (socketId u).

(** The user at position [i] of the map has the id ['user' + (i + 1)] and
    sits under its own email. *)
Definition numbered (us : list (string * User)) : Prop :=
  ∀ i k u, us !! i = Some (k, u) →
           id u = "user" +:+ pretty (i + 1) ∧ email u = k.

(** Two user objects that differ at most in [online] and [socketId]. *)
Definition same_account (u u' : User) : Prop :=
  id u' = id u ∧ username u' = username u ∧ email u' = email u ∧
  password u' = password u.

Definition same_entry (kv kv' : string * User) : Prop :=
  kv'.1 = kv.1 ∧ same_account kv.2 kv'.2.

(** [us'] has the entries of [us] in their places, under their keys and
    for the same accounts, and possibly further entries after them. *)
Definition extends (us us' : list (string * User)) : Prop :=
  ∃ kept more, us' = kept ++ more ∧ Forall2 same_entry us kept.

(** The messages of every chat are still there, in order, possibly with
    more after them. *)
Definition keeps_messages (ms ms' : list (string * list Message)) : Prop :=
  ∀ k l, Map_get k ms = Some l → ∃ more, Map_get k ms' = Some (l ++ more).

End Legacy.

(** ** Basic facts *)

Lemma elem_of_connected st x : x ∈ connected st ↔ is_Some (sockets st !! x).
Proof. unfold connected. rewrite elem_of_elements. apply elem_of_dom. Qed.


Lemma elem_of_room_others st sid room x :
  x ∈ room_others st sid room ↔
  x ≠ sid ∧ ∃ skx, sockets st !! x = Some skx ∧ room ∈ rooms skx.
Proof.
  unfold room_others, in_room.
  rewrite list_elem_of_filter, elem_of_connected.
  split.
  - intros [[Hne Hin] [skx Hx]]. rewrite Hx in Hin.
    apply bool_decide_eq_true in Hin. eauto.
  - intros [Hne (skx & Hx & Hin)]. rewrite Hx.
    split; [split; [done | by apply bool_decide_eq_true] | eauto].
Qed.


Lemma elem_of_all_others st sid x :
  x ∈ all_others st sid ↔ x ≠ sid ∧ is_Some (sockets st !! x).
Proof. unfold all_others. by rewrite list_elem_of_filter, elem_of_connected. Qed.

(** The sockets a room emit reaches depend on the connected sockets only. *)
Lemma room_others_sockets st st' sid room :
  sockets st' = sockets st → room_others st' sid room = room_others st sid room.
Proof.
  intros Heq. unfold room_others, connected, in_room. rewrite Heq. done.
Qed.

(** ** The relays: typing and call events *)

Lemma deliveries_to_emit st x room e :
  deliveries st [to_emit x room e] = (λ y, (y, e)) <$> room_others st x room.
Proof. unfold deliveries. rewrite bind_cons. simpl. apply app_nil_r. Qed.

(** C10.  The six relay events do not look at the chats collection: for a
    connected socket and any room name in the payload, the outbound event
    goes to exactly the connected sockets of that room other than the
    sender, whatever the chat documents say about who participates
    (including when the sender is no participant or no such chat exists). *)
Theorem relay_ignores_membership (now : Z) (sid room : string) (sk : Socket)
    (callType : option string) (st : Server) (cs : gmap string Chat) :
  sockets st !! sid = Some sk →
  let st' := with_chats (λ _, cs) st in
  let out ev := deliveries st' (emitted (step (Receive now sid ev) st')) in
  let forwarded e := (λ x, (x, e)) <$> room_others st sid room in
  (∀ x, x ∈ room_others st sid room ↔
        x ≠ sid ∧ ∃ skx, sockets st !! x = Some skx ∧ room ∈ rooms skx) ∧
  out (on_typing_start (Some (mkChatData room))) =
    forwarded (user_typing (userId sk) (user_username sk)) ∧
  out (on_typing_stop (Some (mkChatData room))) =
    forwarded (user_stop_typing (userId sk)) ∧
  out (on_start_call (Some (mkCallData room callType))) =
    forwarded (incoming_call (userId sk) (user_username sk) room callType) ∧
  out (on_accept_call (Some (mkChatData room))) =
    forwarded (call_accepted (userId sk)) ∧
  out (on_decline_call (Some (mkChatData room))) =
    forwarded (call_declined (userId sk)) ∧
  out (on_end_call (Some (mkChatData room))) =
    forwarded (call_ended (userId sk)).
Proof.
  intros Hsk st' out forwarded.
  split; [intros x; apply elem_of_room_others |].
  assert (Hs : sockets st' = sockets st) by done.
  unfold out, forwarded, step. rewrite Hs, Hsk.
  cbn [handle typing_start typing_stop start_call accept_call decline_call
       end_call emitted returned c_chatId call_chatId call_callType].
  rewrite !deliveries_to_emit, !(room_others_sockets st st' sid room Hs).
  repeat split.
Qed.

(** In the scenario carol ([s3]) is no participant of [c2], and her
    typing indicator for [c2] reaches alice and bob. *)
Lemma relay_ignores_membership_witness :
  sockets Scenario.all_connected !! "s3" = Some Scenario.s3 ∧
  membersOf Scenario.c2 Scenario.all_connected = ["u1"; "u2"] ∧
  deliveries Scenario.all_connected
    (emitted (step (Receive 0 "s3" (on_typing_start (Some (mkChatData Scenario.c2))))
                Scenario.all_connected)) =
  [("s1", user_typing "u3" "carol"); ("s2", user_typing "u3" "carol")].
Proof.
  assert (H : sockets Scenario.all_connected !! "s3" = Some Scenario.s3)
    by (vm_compute; reflexivity).
  split; [exact H |]. split; [vm_compute; reflexivity |].
  destruct (relay_ignores_membership 0 "s3" Scenario.c2 Scenario.s3 None
              Scenario.all_connected (chats Scenario.all_connected) H)
    as (_ & Htyping & _).
  etransitivity; [exact Htyping |]. vm_compute. reflexivity.
Defined.

(** ** Call signalling *)

(** C5, as the spec has it, fails.  In the scenario nobody has started a
    call, and bob's [accept_call] for [c1] is forwarded; alice's second
    [start_call] is forwarded like her first and she gets no error. *)
Lemma call_session_counterexample :
  let st := Scenario.all_connected in
  let accept := step (Receive 0 "s2" (on_accept_call (Some (mkChatData Scenario.c1)))) st in
  let start := Receive 0 "s1" (on_start_call (Some (mkCallData Scenario.c1 (Some "video")))) in
  let first := step start st in
  let second := step start (server first) in
  deliveries (server accept) (emitted accept) =
    [("s3", call_accepted "u2"); ("s1", call_accepted "u2")] ∧
  deliveries (server second) (emitted second) =
    [("s3", incoming_call "u1" "alice" Scenario.c1 (Some "video"));
     ("s2", incoming_call "u1" "alice" Scenario.c1 (Some "video"))] ∧
  deliveries (server second) (emitted second) =
    deliveries (server first) (emitted first).
Proof. vm_compute. repeat split. Qed.

Lemma step_call l st : is_call l = true → server (step l st) = st.
Proof.
  destruct l as [| now sid ev | |]; try done.
  simpl. destruct (sockets st !! sid) as [sk|]; [| done].
  by destruct ev as [d | [d|] | [d|] | [d|] | [d|] | [d|] | [d|]].
Qed.

Lemma run_calls ls st : forallb is_call ls = true → run ls st = st.
Proof.
  revert st. induction ls as [| l ls IH]; intros st Hall; [done |].
  simpl in *. apply andb_prop in Hall as [Hl Hls].
  rewrite (step_call _ _ Hl). by apply IH.
Qed.

(** C5, amended.  The relay keeps no call session.  Each of [start_call],
    [accept_call], [decline_call] and [end_call] with a payload leaves the
    whole server state as it was and is forwarded to the other sockets of
    the room; hence the state after any sequence of call events is the
    state before it, and the next call event is forwarded just the same.
    None of them is answered with an error. *)
Theorem call_relay_stateless (now : Z) (sid room : string) (sk : Socket)
    (callType : option string) (st : Server) :
  sockets st !! sid = Some sk →
  let forwards ev e :=
    step (Receive now sid ev) st = returned st [to_emit sid room e] ∧
    deliveries st [to_emit sid room e] = (λ x, (x, e)) <$> room_others st sid room in
  forwards (on_start_call (Some (mkCallData room callType)))
    (incoming_call (userId sk) (user_username sk) room callType) ∧
  forwards (on_accept_call (Some (mkChatData room))) (call_accepted (userId sk)) ∧
  forwards (on_decline_call (Some (mkChatData room))) (call_declined (userId sk)) ∧
  forwards (on_end_call (Some (mkChatData room))) (call_ended (userId sk)) ∧
  ∀ ls, forallb is_call ls = true → run ls st = st.
Proof.
  intros Hsk forwards. unfold forwards, step. rewrite Hsk.
  repeat split; try apply deliveries_to_emit.
  intros ls. apply run_calls.
Qed.

Lemma call_relay_stateless_witness :
  sockets Scenario.all_connected !! "s1" = Some Scenario.s1 ∧
  step (Receive 0 "s1" (on_accept_call (Some (mkChatData Scenario.c1))))
    Scenario.all_connected =
  returned Scenario.all_connected [to_emit "s1" Scenario.c1 (call_accepted "u1")].
Proof.
  assert (H : sockets Scenario.all_connected !! "s1" = Some Scenario.s1)
    by (vm_compute; reflexivity).
  split; [exact H |].
  exact (proj1 (proj1 (proj2 (call_relay_stateless 0 "s1" Scenario.c1 Scenario.s1 None
                                Scenario.all_connected H)))).
Defined.

(** ** send_message: the ways to fail *)

Section SendFails.

Variables (now : Z) (sid : string) (sk : Socket) (st : Server).

Lemma send_no_cast (d : SendData) :
  ObjectId_cast (d_chatId d) = None →
  send_message now sid sk (Some d) st = failed_to_send sid st.
Proof. unfold send_message. by intros ->. Qed.

Lemma send_not_member (d : SendData) (oid : string) :
  ObjectId_cast (d_chatId d) = Some oid →
  userId sk ∉ membersOf (d_chatId d) st →
  send_message now sid sk (Some d) st = access_denied sid st.
Proof.
  unfold membersOf, send_message. intros -> Hnot.
  destruct (chats st !! oid) as [chat|]; [| done].
  by rewrite bool_decide_eq_false_2.
Qed.

Lemma validate_empty (mt : string) : Message_validate (Some "") mt = None.
Proof. done. Qed.

Lemma send_empty_text (d : SendData) :
  d_text d = Some "" →
  send_message now sid sk (Some d) st = access_denied sid st ∨
  send_message now sid sk (Some d) st = failed_to_send sid st.
Proof.
  intros Htext. unfold send_message. rewrite Htext, validate_empty.
  destruct (ObjectId_cast (d_chatId d)) as [oid|]; [| by right].
  destruct (chats st !! oid) as [chat|]; [| by left].
  case_bool_decide; [by right | by left].
Qed.

End SendFails.

(** C3, as the spec has it, fails.  Carol sends into a chat under an id
    that is no ObjectId.  Nobody is a member of such a chat, yet the error
    she gets is not 'Access denied': [Chat.findById] throws on the id, and
    the [catch] block answers 'Failed to send message'. *)
Lemma send_requires_membership_counterexample :
  let st := Scenario.all_connected in
  let r := step (Receive 7 "s3" (on_send_message (Scenario.hi "nochat"))) st in
  sockets st !! "s3" = Some Scenario.s3 ∧
  membersOf "nochat" st = [] ∧
  emitted r = [emit "s3" (error "Failed to send message")] ∧
  emitted r ≠ [emit "s3" (error "Access denied")].
Proof.
  split; [vm_compute; reflexivity |]. split; [vm_compute; reflexivity |].
  split; [vm_compute; reflexivity |]. vm_compute. intros H. discriminate H.
Qed.

(** C3, amended.  A [send_message] of a connected socket whose user is not
    among the participants of the chat that the payload names (the id may
    name no chat, or not be an id at all) fails: the state is the one
    before, so that no message is stored, no chat summary written and no
    timer set, and the only delivery is one error to the sender.  The error
    is 'Access denied' when the id casts to an ObjectId and 'Failed to send
    message' when it does not. *)
Theorem send_requires_membership (now : Z) (sid : string) (sk : Socket)
    (d : SendData) (st : Server) :
  sockets st !! sid = Some sk →
  userId sk ∉ membersOf (d_chatId d) st →
  let r := step (Receive now sid (on_send_message (Some d))) st in
  let msg := match ObjectId_cast (d_chatId d) with
             | Some _ => "Access denied"
             | None => "Failed to send message"
             end in
  server r = st ∧
  emitted r = [emit sid (error msg)] ∧
  deliveries (server r) (emitted r) = [(sid, error msg)] ∧
  uncaught r = false.
Proof.
  intros Hsk Hnot r msg. unfold r, msg, step. rewrite Hsk. cbn [handle].
  destruct (ObjectId_cast (d_chatId d)) as [oid|] eqn:Hcast.
  - by rewrite (send_not_member now sid sk st d oid Hcast Hnot).
  - by rewrite send_no_cast.
Qed.

(** Carol is no participant of [c2]. *)
Lemma send_requires_membership_witness :
  sockets Scenario.all_connected !! "s3" = Some Scenario.s3 ∧
  membersOf Scenario.c2 Scenario.all_connected = ["u1"; "u2"] ∧
  let r := step (Receive 7 "s3" (on_send_message (Scenario.hi Scenario.c2)))
             Scenario.all_connected in
  server r = Scenario.all_connected ∧
  emitted r = [emit "s3" (error "Access denied")] ∧
  deliveries (server r) (emitted r) = [("s3", error "Access denied")] ∧
  uncaught r = false.
Proof.
  assert (H : sockets Scenario.all_connected !! "s3" = Some Scenario.s3)
    by (vm_compute; reflexivity).
  assert (M : membersOf Scenario.c2 Scenario.all_connected = ["u1"; "u2"])
    by (vm_compute; reflexivity).
  split; [exact H |]. split; [exact M |].
  apply (send_requires_membership 7 "s3" Scenario.s3
           (mkSendData Scenario.c2 (Some "hi") None) Scenario.all_connected H).
  cbn [d_chatId]. rewrite M. intros Hin.
  by repeat (apply elem_of_cons in Hin as [? | Hin]);
    try by apply elem_of_nil in Hin.
Defined.


(** C9.  A [send_message] of kind text (given or by default) with the empty
    string as its text fails: the state is the one before, so no message
    is stored, and the sender gets exactly one [error] event and no
    [message_sent]; nothing goes to anybody else. *)
Theorem send_requires_text (now : Z) (sid : string) (sk : Socket)
    (d : SendData) (st : Server) :
  sockets st !! sid = Some sk →
  default "text" (d_messageType d) = "text" →
  d_text d = Some "" →
  let r := step (Receive now sid (on_send_message (Some d))) st in
  server r = st ∧
  messages (server r) = messages st ∧
  (∃ msg, emitted r = [emit sid (error msg)] ∧
          deliveries (server r) (emitted r) = [(sid, error msg)]) ∧
  uncaught r = false.
Proof.
  intros Hsk _ Htext r. unfold r, step. rewrite Hsk. cbn [handle].
  destruct (send_empty_text now sid sk st d Htext) as [-> | ->];
    (split; [done |]; split; [done |]; split; [eauto | done]).
Qed.

Lemma send_requires_text_witness :
  let d := mkSendData Scenario.c1 (Some "") None in
  let r := step (Receive 7 "s1" (on_send_message (Some d))) Scenario.all_connected in
  sockets Scenario.all_connected !! "s1" = Some Scenario.s1 ∧
  server r = Scenario.all_connected ∧
  messages (server r) = messages Scenario.all_connected ∧
  (∃ msg, emitted r = [emit "s1" (error msg)] ∧
          deliveries (server r) (emitted r) = [("s1", error msg)]) ∧
  uncaught r = false.
Proof.
  intros d r.
  assert (H : sockets Scenario.all_connected !! "s1" = Some Scenario.s1)
    by (vm_compute; reflexivity).
  split; [exact H |].
  exact (send_requires_text 7 "s1" Scenario.s1 d Scenario.all_connected H
           eq_refl eq_refl).
Defined.

(** ** send_message: the successful path *)

Section SendSucceeds.

Variables (now : Z) (sid : string) (sk : Socket) (st : Server).
Variables (d : SendData) (oid : string) (chat : Chat) (txt : string) (u : User).

Hypothesis Hcast : ObjectId_cast (d_chatId d) = Some oid.
Hypothesis Hchat : chats st !! oid = Some chat.
Hypothesis Hmember : userId sk ∈ participants chat.
Hypothesis Hvalid :
  Message_validate (d_text d) (default "text" (d_messageType d)) = Some txt.
Hypothesis Huser : users st !! userId sk = Some u.

Lemma send_ok :
  send_message now sid sk (Some d) st =
  returned (after_send now sid sk st oid d chat txt)
    [to_emit sid (d_chatId d) (new_message (sent_event now sk st oid d txt u));
     emit sid (message_sent (sent_event now sk st oid d txt u))].
Proof.
  unfold send_message. rewrite Hcast, Hchat.
  rewrite (bool_decide_eq_true_2 _ Hmember), Hvalid.
  cbn [with_messages users]. rewrite Huser. reflexivity.
Qed.

Lemma send_ok_deliveries :
  deliveries (after_send now sid sk st oid d chat txt)
    [to_emit sid (d_chatId d) (new_message (sent_event now sk st oid d txt u));
     emit sid (message_sent (sent_event now sk st oid d txt u))] =
  ((λ x, (x, new_message (sent_event now sk st oid d txt u)))
     <$> room_others st sid (d_chatId d))
    ++ [(sid, message_sent (sent_event now sk st oid d txt u))].
Proof.
  unfold deliveries. rewrite !bind_cons. simpl. f_equal.
Qed.

End SendSucceeds.


(** ** Counting deliveries *)








(** ** What one step can change *)

(** The four ways [send_message] ends. *)
Lemma send_message_cases now sid sk data st :
  let r := send_message now sid sk data st in
  r = access_denied sid st ∨
  r = failed_to_send sid st ∨
  ∃ d oid chat txt,
    data = Some d ∧ ObjectId_cast (d_chatId d) = Some oid ∧
    chats st !! oid = Some chat ∧
    userId sk ∈ participants chat ∧
    Message_validate (d_text d) (default "text" (d_messageType d)) = Some txt ∧
    ((users st !! userId sk = None ∧
      r = failed_to_send sid (after_save now sk st oid d chat txt)) ∨
     (∃ u, users st !! userId sk = Some u ∧
           r = returned (after_send now sid sk st oid d chat txt)
                 [to_emit sid (d_chatId d)
                    (new_message (sent_event now sk st oid d txt u));
                  emit sid (message_sent (sent_event now sk st oid d txt u))])).
Proof.
  intros r. unfold r, send_message.
  destruct data as [d|]; [| by right; left].
  destruct (ObjectId_cast (d_chatId d)) as [oid|] eqn:Hcast; [| by right; left].
  destruct (chats st !! oid) as [chat|] eqn:Hchat; [| by left].
  case_bool_decide as Hmember; [| by left].
  destruct (Message_validate _ _) as [txt|] eqn:Hvalid; [| by right; left].
  right; right. exists d, oid, chat, txt. repeat (split; [done |]).
  cbn [with_messages users].
  destruct (users st !! userId sk) as [u|] eqn:Huser; simpl.
  - right. by exists u.
  - by left.
Qed.

Lemma lookup_after_save now sk st oid d chat txt c :
  chats st !! oid = Some chat →
  participants <$> chats (after_save now sk st oid d chat txt) !! c =
  participants <$> chats st !! c.
Proof.
  intros Hchat. simpl.
  destruct (decide (oid = c)) as [<- | Hne].
  - by rewrite lookup_insert_eq, Hchat.
  - by rewrite lookup_insert_ne.
Qed.

(** An inbound event changes neither the sockets nor the users nor who
    participates in which chat. *)
Lemma handle_frame now sid sk ev st :
  let st' := server (handle now sid sk ev st) in
  sockets st' = sockets st ∧ users st' = users st ∧
  ∀ c, participants <$> chats st' !! c = participants <$> chats st !! c.
Proof.
  destruct ev as [data | [d|] | [d|] | [d|] | [d|] | [d|] | [d|]]; try done.
  cbn [handle].
  destruct (send_message_cases now sid sk data st)
    as [-> | [-> | (d & oid & chat & txt & _ & _ & Hchat & _ & _
                    & [[_ ->] | (u & _ & ->)])]];
    try done; (split; [done |]; split; [done |]); intros c;
    by apply lookup_after_save.
Qed.

(** What an inbound event does to the messages and the timers: nothing, or
    one message stored as [sent], with or without a timer for it. *)
Lemma handle_messages now sid sk ev st :
  let st' := server (handle now sid sk ev st) in
  (messages st' = messages st ∧ timers st' = timers st) ∨
  ∃ m room, status m = sent ∧ messages st' = messages st ++ [m] ∧
    (timers st' = timers st ∨
     timers st' = timers st ++ [mkTimer (length (messages st)) sid room]).
Proof.
  destruct ev as [data | [d|] | [d|] | [d|] | [d|] | [d|] | [d|]];
    try (by left).
  cbn [handle].
  destruct (send_message_cases now sid sk data st)
    as [-> | [-> | (d & oid & chat & txt & _ & _ & Hchat & _ & _
                    & [[_ ->] | (u & _ & ->)])]];
    try (by left); right; exists (saved now sk oid d txt), (d_chatId d);
    (split; [done |]; split; [done |]); [by left | by right].
Qed.

Lemma elem_of_Chat_find uid st c :
  c ∈ Chat_find uid st ↔ ∃ chat, chats st !! c = Some chat ∧ uid ∈ participants chat.
Proof.
  unfold Chat_find. rewrite elem_of_dom. unfold is_Some.
  setoid_rewrite map_lookup_filter_Some. naive_solver.
Qed.

(** ** Acknowledgments *)

(** C7 does not hold of the typing and call handlers.  [send_message]
    wraps its body in try/catch, so that an event without a payload is
    answered with one error and the handler returns.  The six relay
    handlers have no try/catch: without a payload [data.chatId] (in
    [start_call] the destructuring of [data]) throws, nothing is emitted,
    neither a broadcast nor an error acknowledgment, and the exception
    leaves the handler uncaught. *)
Theorem relay_without_payload_throws (now : Z) (sid : string) (sk : Socket)
    (st : Server) :
  sockets st !! sid = Some sk →
  let r ev := step (Receive now sid ev) st in
  (∀ ev, ev ∈ [on_typing_start None; on_typing_stop None; on_start_call None;
               on_accept_call None; on_decline_call None; on_end_call None] →
     emitted (r ev) = [] ∧ uncaught (r ev) = true) ∧
  emitted (r (on_send_message None)) = [emit sid (error "Failed to send message")] ∧
  uncaught (r (on_send_message None)) = false.
Proof.
  intros Hsk r. unfold r, step. rewrite Hsk. split; [| done].
  intros ev Hev.
  repeat (apply elem_of_cons in Hev as [-> | Hev]; [done |]).
  by apply elem_of_nil in Hev.
Qed.

Lemma relay_without_payload_throws_witness :
  let st := Scenario.all_connected in
  let r := step (Receive 7 "s1" (on_typing_start None)) st in
  sockets st !! "s1" = Some Scenario.s1 ∧
  emitted r = [] ∧ uncaught r = true.
Proof.
  intros st r.
  assert (Hsk : sockets st !! "s1" = Some Scenario.s1) by (vm_compute; reflexivity).
  split; [exact Hsk |].
  apply (proj1 (relay_without_payload_throws 7 "s1" Scenario.s1 st Hsk)
           (on_typing_start None)).
  apply list_elem_of_here.
Defined.


(** ** The status of a message *)

(** C1, as the spec has it, fails.  The one status update of the code, the
    timer's, writes [delivered] over whatever is stored: applied to a
    message that is [read] it moves the status back. *)
Lemma monotonic_status_counterexample :
  let st := Scenario.read_early in
  timers st = [mkTimer 0 "s1" Scenario.c2] ∧
  status <$> messages st !! 0 = Some read ∧
  status <$> messages (server (step Timeout st)) !! 0 = Some delivered ∧
  status <$> messages (Message_findByIdAndUpdate 0 delivered st) !! 0
    = Some delivered.
Proof. vm_compute. repeat split. Qed.

Lemma lookup_alter_status (ms : list Message) i j s m :
  alter (set_status s) i ms !! j = Some m →
  ∃ m0, ms !! j = Some m0 ∧
        ((i = j ∧ m = set_status s m0) ∨ (i ≠ j ∧ m = m0)).
Proof.
  destruct (decide (i = j)) as [-> | Hne].
  - rewrite list_lookup_alter_eq. destruct (ms !! j) as [m0|]; [| done].
    intros [= <-]. eauto.
  - rewrite list_lookup_alter_ne by done. eauto.
Qed.

(** One step of the server, from a state where no pending timer is for a
    read message: the same holds after it, and no stored status has moved
    back. *)
Lemma step_status l st :
  timers_unread st →
  timers_unread (server (step l st)) ∧
  ∀ id m, messages st !! id = Some m →
    ∃ m', messages (server (step l st)) !! id = Some m' ∧
          rank (status m) ≤ rank (status m').
Proof.
  intros Hinv. destruct l as [sid decoded | now sid ev | now sid |]; simpl.
  - destruct (socketAuth decoded st) as [[uid u]|]; (split; [done | eauto]).
  - destruct (sockets st !! sid) as [sk|]; [| split; [done | eauto]].
    destruct (handle_messages now sid sk ev st)
      as [[Hm Ht] | (m0 & room & Hsent & Hm & Ht)].
    + split.
      * intros t m. rewrite Ht, Hm. apply Hinv.
      * intros id m. rewrite Hm. eauto.
    + assert (Hold : ∀ t m, t ∈ timers st →
                messages (server (handle now sid sk ev st)) !! t_message t = Some m →
                status m ≠ read).
      { intros t m Hin. rewrite Hm.
        destruct (decide (t_message t < length (messages st))) as [Hlt | Hge].
        - rewrite lookup_app_l by done. by apply Hinv.
        - rewrite lookup_app_r by lia.
          destruct (t_message t - length (messages st)) as [| k]; [| done].
          intros [= <-]. by rewrite Hsent. }
      split.
      * intros t m. destruct Ht as [Ht | Ht]; rewrite Ht; [by apply Hold |].
        intros Hin. apply elem_of_app in Hin as [Hin | Hin]; [by apply Hold |].
        apply list_elem_of_singleton in Hin as ->. rewrite Hm. simpl.
        rewrite lookup_app_r, Nat.sub_diag by done.
        intros [= <-]. by rewrite Hsent.
      * intros id m Hid. exists m. split; [| done].
        rewrite Hm. by apply lookup_app_l_Some.
  - destruct (sockets st !! sid) as [sk|]; (split; [done | eauto]).
  - destruct (timers st) as [| t ts] eqn:Ht; [split; [done | eauto] |].
    simpl. split.
    + intros t' m Hin Hlook.
      apply lookup_alter_status in Hlook as (m0 & Hm0 & [[_ ->] | [_ ->]]);
        [done |].
      apply (Hinv t' m0); [| done]. rewrite Ht. by right.
    + intros id m Hid.
      destruct (decide (t_message t = id)) as [<- | Hne].
      * rewrite list_lookup_alter_eq, Hid. eexists. split; [done |].
        assert (status m ≠ read).
        { apply (Hinv t m); [| done]. rewrite Ht. by left. }
        simpl. destruct (status m); simpl; try lia; done.
      * rewrite list_lookup_alter_ne by done. eauto.
Qed.

Lemma run_status ls st :
  timers_unread st →
  timers_unread (run ls st) ∧
  ∀ id m, messages st !! id = Some m →
    ∃ m', messages (run ls st) !! id = Some m' ∧
          rank (status m) ≤ rank (status m').
Proof.
  revert st. induction ls as [| l ls IH]; intros st Hinv; [split; [done | eauto] |].
  destruct (step_status l st Hinv) as [Hinv' Hmono].
  destruct (IH _ Hinv') as [Hinv'' Hmono'].
  simpl. split; [done |]. intros id m Hid.
  destruct (Hmono id m Hid) as (m1 & Hm1 & Hle1).
  destruct (Hmono' id m1 Hm1) as (m2 & Hm2 & Hle2).
  exists m2. split; [done | lia].
Qed.

Lemma observed_nondecreasing id ls st :
  timers_unread st → nondecreasing_from (floor id st) (observed id ls st).
Proof.
  revert st. induction ls as [| l ls IH]; intros st Hinv; [done |].
  destruct (step_status l st Hinv) as [Hinv' Hmono].
  specialize (IH _ Hinv'). simpl. unfold floor in *.
  destruct (messages st !! id) as [m|] eqn:Hm.
  - destruct (Hmono id m Hm) as (m' & Hm' & Hle).
    rewrite Hm' in *. simpl. done.
  - destruct (messages (server (step l st)) !! id) as [m'|]; simpl.
    + split; [lia | done].
    + done.
Qed.

Lemma drop_rank s :
  drop (rank s) [sent; delivered; read] = s :: drop (S (rank s)) [sent; delivered; read].
Proof. by destruct s. Qed.

Lemma sublist_drop_le {A} (l : list A) k k' :
  k ≤ k' → sublist (drop k' l) (drop k l).
Proof.
  intros Hle. replace k' with (k + (k' - k)) by lia.
  rewrite <- drop_drop. apply sublist_drop.
Qed.

Lemma changes_sublist l k :
  nondecreasing_from k l → sublist (changes l) (drop k [sent; delivered; read]).
Proof.
  revert k. induction l as [| s l IH]; intros k; [intros _; apply sublist_nil_l |].
  intros [Hk Hl]. cbn [changes].
  destruct l as [| s' l'].
  - etransitivity; [| apply (sublist_drop_le _ k (rank s) Hk)].
    rewrite drop_rank. apply sublist_skip, sublist_nil_l.
  - destruct (decide (s = s')) as [<- | Hne].
    + etransitivity; [apply IH, Hl |]. by apply sublist_drop_le.
    + etransitivity; [| apply (sublist_drop_le _ k (rank s) Hk)].
      rewrite drop_rank. apply sublist_skip, IH.
      destruct Hl as [Hle Hl']. split; [| done].
      destruct s, s'; simpl in *; try lia; done.
Qed.

(** C1, amended.  From a state in which no pending timer is for a message
    that is already [read] (such as any state without pending timers), the
    stored status of every message only moves forward along sent,
    delivered, read in every run of the server: the status found after the
    run is not behind the one before, and the sequence of statuses a
    message shows, repetitions dropped, is a subsequence of sent,
    delivered, read.  Writing [delivered] a second time changes nothing.
    The update itself is unguarded: nothing is claimed when a message with
    a pending timer is marked [read] from outside. *)
Theorem status_moves_forward (ls : list Label) (id : nat) (st : Server) :
  timers_unread st →
  (∀ m, messages st !! id = Some m →
        ∃ m', messages (run ls st) !! id = Some m' ∧
              rank (status m) ≤ rank (status m')) ∧
  sublist (changes (observed id ls st)) [sent; delivered; read] ∧
  Message_findByIdAndUpdate id delivered (Message_findByIdAndUpdate id delivered st)
    = Message_findByIdAndUpdate id delivered st.
Proof.
  intros Hinv. split; [| split].
  - apply run_status, Hinv.
  - etransitivity; [apply (changes_sublist _ (floor id st)) |].
    + by apply observed_nondecreasing.
    + apply sublist_drop.
  - unfold Message_findByIdAndUpdate, with_messages. simpl. f_equal.
    rewrite list_alter_alter_eq. apply list_alter_ext; [| done].
    by intros [].
Qed.

Lemma status_moves_forward_witness :
  let ls := [Connect "s1" (Some "u1"); Connect "s2" (Some "u2");
             Receive 7 "s1" (on_send_message (Scenario.hi Scenario.c2));
             Receive 8 "s2" (on_typing_start (Some (mkChatData Scenario.c2)));
             Timeout; Disconnect 9 "s2"] in
  timers_unread Scenario.db ∧
  changes (observed 0 ls Scenario.db) = [sent; delivered] ∧
  sublist (changes (observed 0 ls Scenario.db)) [sent; delivered; read].
Proof.
  intros ls.
  assert (H : timers_unread Scenario.db).
  { intros t m Hin. by apply elem_of_nil in Hin. }
  split; [exact H |]. split; [vm_compute; reflexivity |].
  exact (proj1 (proj2 (status_moves_forward ls 0 Scenario.db H))).
Defined.

(** ** Presence *)

Lemma connection_users sid uid u st v :
  users (server (connection sid uid u st)) !! v =
  if decide (uid = v)
  then (λ r, mkUser (username r) true (lastSeen r) (Some sid)) <$> users st !! v
  else users st !! v.
Proof.
  simpl. destruct (decide (uid = v)) as [<- | Hne].
  - by rewrite lookup_alter_eq.
  - by rewrite lookup_alter_ne.
Qed.

Lemma disconnect_users now sid sk st v :
  users (server (disconnect now sid sk st)) !! v =
  if decide (userId sk = v)
  then (λ r, mkUser (username r) false now None) <$> users st !! v
  else users st !! v.
Proof.
  simpl. destruct (decide (userId sk = v)) as [<- | Hne].
  - by rewrite lookup_alter_eq.
  - by rewrite lookup_alter_ne.
Qed.



Lemma Scenario_db_presence : presence_inv Scenario.db.
Proof.
  intros v r Hv. unfold Scenario.db in Hv. simpl in Hv.
  repeat (apply lookup_insert_Some in Hv as [[_ <-] | [_ Hv]]; [by intros [=] |]).
  by rewrite lookup_empty in Hv.
Qed.





(** ** A second connection of the same user *)

(** C4, as the spec has it, fails.  Alice connects as [s1] and then again
    as [s9]: her first connection is still there, in its rooms, and gets
    what is sent to them; when it closes later, her document says offline
    while [s9] is connected. *)
Lemma second_connection_counterexample :
  let st := server (step (Connect "s9" (Some "u1")) Scenario.all_connected) in
  let typing := step (Receive 7 "s2" (on_typing_start (Some (mkChatData Scenario.c2)))) st in
  let closed := server (step (Disconnect 8 "s1") st) in
  sockets st !! "s1" = Some Scenario.s1 ∧
  user_of st "s1" = Some "u1" ∧ user_of st "s9" = Some "u1" ∧
  socketId <$> users st !! "u1" = Some (Some "s9") ∧
  deliveries (server typing) (emitted typing) =
    [("s9", user_typing "u2" "bob"); ("s1", user_typing "u2" "bob")] ∧
  users closed !! "u1" = Some (mkUser "alice" false 8 None) ∧
  user_of closed "s9" = Some "u1".
Proof. vm_compute. repeat split. Qed.

(** C4, amended.  A connection that authenticates as user U under a fresh
    socket id writes that id and [online = true] into U's document, which
    holds one handle, the newest; it joins the rooms of U's chats; and it
    closes nothing: every socket connected before, U's earlier ones
    included, is connected after with the rooms it had, and no other
    user's document changes. *)
Theorem connection_keeps_earlier_ones (sid : string) (decoded : option string)
    (uid : string) (u : User) (st : Server) :
  sockets st !! sid = None →
  socketAuth decoded st = Some (uid, u) →
  let r := step (Connect sid decoded) st in
  users (server r) !! uid = Some (mkUser (username u) true (lastSeen u) (Some sid)) ∧
  sockets (server r) !! sid =
    Some (mkSocket uid (username u) ({[sid]} ∪ Chat_find uid st)) ∧
  (∀ x skx, sockets st !! x = Some skx → sockets (server r) !! x = Some skx) ∧
  (∀ v, v ≠ uid → users (server r) !! v = users st !! v) ∧
  emitted r = [] ∧ uncaught r = false.
Proof.
  intros Hfresh Hauth r. unfold r. cbn [step]. rewrite Hauth.
  assert (Hu : decoded = Some uid ∧ users st !! uid = Some u).
  { unfold socketAuth in Hauth. destruct decoded as [uid'|]; [| done].
    simpl in Hauth. destruct (users st !! uid') as [u'|] eqn:Hu'; [| done].
    simpl in Hauth. injection Hauth as -> ->. done. }
  destruct Hu as [_ Hu].
  split; [by rewrite connection_users, decide_True, Hu |].
  split; [simpl; by rewrite lookup_insert_eq |].
  split; [| split; [| done]].
  - intros x skx Hx. simpl. rewrite lookup_insert_ne; [done |].
    intros <-. congruence.
  - intros v Hne. by rewrite connection_users, decide_False.
Qed.

Lemma connection_keeps_earlier_ones_witness :
  let st := Scenario.all_connected in
  let r := step (Connect "s9" (Some "u1")) st in
  sockets st !! "s9" = None ∧
  users (server r) !! "u1" = Some (mkUser "alice" true 0 (Some "s9")) ∧
  sockets (server r) !! "s1" = Some Scenario.s1.
Proof.
  intros st r.
  assert (Hfresh : sockets st !! "s9" = None) by (vm_compute; reflexivity).
  assert (Hauth : socketAuth (Some "u1") st =
                  Some ("u1", mkUser "alice" true 0 (Some "s1")))
    by (vm_compute; reflexivity).
  destruct (connection_keeps_earlier_ones "s9" (Some "u1") "u1"
              (mkUser "alice" true 0 (Some "s1")) st Hfresh Hauth)
    as (Hu & _ & Hold & _).
  split; [exact Hfresh |]. split; [exact Hu |].
  apply Hold. vm_compute; reflexivity.
Defined.

(** * The in-memory server: facts *)

(** ** Maps in insertion order *)

Lemma Legacy_Map_get_cons {V} k k' (v : V) m :
  Legacy.Map_get k ((k', v) :: m) =
  if decide (k' = k) then Some v else Legacy.Map_get k m.
Proof.
  unfold Legacy.Map_get. rewrite filter_cons. simpl.
  by destruct (decide (k' = k)).
Qed.

Lemma Legacy_Map_has_false {V} k (m : list (string * V)) :
  Legacy.Map_has k m = false ↔ Legacy.Map_get k m = None.
Proof.
  unfold Legacy.Map_has. rewrite bool_decide_eq_false.
  rewrite <- eq_None_not_Some. done.
Qed.

Lemma Legacy_Map_set_absent {V} k (v : V) m :
  Legacy.Map_get k m = None → Legacy.Map_set k v m = m ++ [(k, v)].
Proof.
  induction m as [| [k' v'] m IH]; [done |].
  rewrite Legacy_Map_get_cons. simpl.
  destruct (decide (k' = k)); [done |]. intros H. by rewrite IH.
Qed.

Lemma Legacy_Map_get_set_eq {V} k (v : V) m :
  Legacy.Map_get k (Legacy.Map_set k v m) = Some v.
Proof.
  induction m as [| [k' v'] m IH]; simpl.
  - by rewrite Legacy_Map_get_cons, decide_True.
  - destruct (decide (k' = k)).
    + by rewrite Legacy_Map_get_cons, decide_True.
    + by rewrite Legacy_Map_get_cons, decide_False.
Qed.

Lemma Legacy_Map_get_set_ne {V} k k0 (v : V) m :
  k ≠ k0 → Legacy.Map_get k0 (Legacy.Map_set k v m) = Legacy.Map_get k0 m.
Proof.
  intros Hne. induction m as [| [k' v'] m IH]; simpl.
  - by rewrite Legacy_Map_get_cons, decide_False.
  - destruct (decide (k' = k)) as [-> | Hk].
    + by rewrite !Legacy_Map_get_cons, !decide_False.
    + rewrite !Legacy_Map_get_cons. by destruct (decide (k' = k0)).
Qed.

Lemma Legacy_Map_set_last {V} k (v v0 : V) m :
  Legacy.Map_get k m = None →
  Legacy.Map_set k v (m ++ [(k, v0)]) = m ++ [(k, v)].
Proof.
  induction m as [| [k' v'] m IH]; simpl.
  - intros _. by rewrite decide_True.
  - rewrite Legacy_Map_get_cons.
    destruct (decide (k' = k)); [done |]. intros H. by rewrite IH.
Qed.

(** [set] on a key that is there changes the entry that [get] finds and
    nothing else, position by position. *)
Lemma Legacy_Map_set_present {V} (R : string * V → string * V → Prop) k (v v0 : V) m :
  (∀ kv, R kv kv) →
  Legacy.Map_get k m = Some v0 →
  R (k, v0) (k, v) →
  Forall2 R m (Legacy.Map_set k v m).
Proof.
  intros Hrefl Hget Hk. induction m as [| [k' v'] m IH]; [done |].
  rewrite Legacy_Map_get_cons in Hget. simpl.
  destruct (decide (k' = k)) as [-> | Hne].
  - injection Hget as ->.
    constructor; [done | by apply Forall_Forall2_diag, Forall_forall].
  - constructor; [done | by apply IH].
Qed.

Lemma Legacy_update_first_Forall2 {A} (R : A → A → Prop) P f (l : list A) :
  (∀ x, R x x) → (∀ x, x ∈ l → P x = true → R x (f x)) →
  Forall2 R l (Legacy.update_first P f l).
Proof.
  intros Hrefl. induction l as [| x l IH]; intros Hf; [constructor |].
  simpl. destruct (P x) eqn:HP.
  - constructor; [apply Hf; [by left | done] |].
    by apply Forall_Forall2_diag, Forall_forall.
  - constructor; [done |]. apply IH. intros y Hy. apply Hf. by right.
Qed.

(** ** Accounts *)

Lemma Legacy_same_entry_refl kv : Legacy.same_entry kv kv.
Proof. by repeat split. Qed.

Lemma Legacy_extends_refl us : Legacy.extends us us.
Proof.
  exists us, []. split; [by rewrite app_nil_r |].
  apply Forall_Forall2_diag, Forall_forall. intros kv _.
  apply Legacy_same_entry_refl.
Qed.

Lemma Legacy_extends_Forall2 us us' :
  Forall2 Legacy.same_entry us us' → Legacy.extends us us'.
Proof. intros H. exists us', []. by rewrite app_nil_r. Qed.

Lemma Legacy_extends_trans us1 us2 us3 :
  Legacy.extends us1 us2 → Legacy.extends us2 us3 → Legacy.extends us1 us3.
Proof.
  intros (kept & more & -> & H12) (kept' & more' & -> & H23).
  apply Forall2_app_inv_l in H23 as (k1 & k2 & Hk1 & Hk2 & ->).
  exists k1, (k2 ++ more'). split; [by rewrite app_assoc |].
  revert k1 Hk1. induction H12 as [| x y l l' Hxy H12 IH]; intros k1 Hk1.
  - apply Forall2_nil_inv_l in Hk1 as ->. constructor.
  - apply Forall2_cons_inv_l in Hk1 as (z & k1' & Hyz & Hk1' & ->).
    constructor; [| by apply IH].
    destruct Hxy as [Hk (? & ? & ? & ?)], Hyz as [Hk' (? & ? & ? & ?)].
    repeat split; congruence.
Qed.

Lemma Legacy_extends_get us us' k u :
  Legacy.extends us us' → Legacy.Map_get k us = Some u →
  ∃ u', Legacy.Map_get k us' = Some u' ∧ Legacy.same_account u u'.
Proof.
  intros (kept & more & -> & H). revert u.
  induction H as [| [k1 u1] [k2 u2] l l' [Hk Hacc] H IH]; intros u; [done |].
  simpl in Hk. subst k2. rewrite <- app_comm_cons, !Legacy_Map_get_cons.
  destruct (decide (k1 = k)); [| apply IH].
  intros [= <-]. eauto.
Qed.

(** What a step does to the map of users: it changes entries in place,
    keeping key and account, or it adds the account of a [register] at the
    end, under an email that was not there. *)
Lemma Legacy_step_users l st :
  Forall2 Legacy.same_entry (Legacy.users st) (Legacy.users (Legacy.step l st).1) ∨
  ∃ sid ud,
    Legacy.Map_get (Legacy.ud_email ud) (Legacy.users st) = None ∧
    Legacy.users (Legacy.step l st).1 =
    Legacy.users st ++
      [(Legacy.ud_email ud,
        Legacy.mkUser ("user" +:+ pretty (length (Legacy.users st) + 1))
          (Legacy.ud_username ud) (Legacy.ud_email ud) (Legacy.ud_password ud)
          true (Some sid))].
Proof.
  assert (Hsame : Forall2 Legacy.same_entry (Legacy.users st) (Legacy.users st)).
  { apply Forall_Forall2_diag, Forall_forall. intros kv _.
    apply Legacy_same_entry_refl. }
  destruct l as [sid | now sid ev | sid]; simpl.
  - by left.
  - case_bool_decide; [| by left].
    destruct ev as [ud | cr | q | md]; simpl; try (by left).
    + unfold Legacy.register.
      destruct (Legacy.Map_has _ _) eqn:Hhas; [by left |].
      simpl. apply Legacy_Map_has_false in Hhas. right. exists sid, ud.
      split; [done |]. by apply Legacy_Map_set_absent.
    + unfold Legacy.login.
      destruct (Legacy.Map_get _ _) as [user|] eqn:Hget; [| by left].
      case_bool_decide; [| by left].
      left. simpl.
      apply (Legacy_Map_set_present _ _ _ user);
        [apply Legacy_same_entry_refl | done | by repeat split].
  - case_bool_decide; [| by left].
    left. simpl. apply Legacy_update_first_Forall2.
    + apply Legacy_same_entry_refl.
    + intros [k u] _ _. by repeat split.
Qed.

Lemma Legacy_run_extends ls st :
  Legacy.extends (Legacy.users st) (Legacy.users (Legacy.run ls st)).
Proof.
  revert st. induction ls as [| l ls IH]; intros st; [apply Legacy_extends_refl |].
  simpl. eapply Legacy_extends_trans; [| apply IH].
  destruct (Legacy_step_users l st) as [H | (sid & ud & _ & ->)].
  - by apply Legacy_extends_Forall2.
  - eexists _, _. split; [done |].
    apply Forall_Forall2_diag, Forall_forall. intros kv _.
    apply Legacy_same_entry_refl.
Qed.

(** X1.  An account that is in the map stays there under its email with its
    id, username, email and password, whatever events follow; a later
    [register] under the same email is refused and changes nothing. *)
Theorem Legacy_accounts_are_kept (ls : list Legacy.Label) (st : Legacy.Server)
    (k : string) (u : Legacy.User) :
  Legacy.Map_get k (Legacy.users st) = Some u →
  (∃ u', Legacy.Map_get k (Legacy.users (Legacy.run ls st)) = Some u' ∧
         Legacy.same_account u u') ∧
  ∀ sid ud, Legacy.ud_email ud = k →
    Legacy.register sid ud st =
    (st, [Legacy.emit sid (Legacy.registerError "User already exists")]).
Proof.
  intros Hget. split.
  - apply (Legacy_extends_get (Legacy.users st)); [| done].
    apply Legacy_run_extends.
  - intros sid ud <-. unfold Legacy.register, Legacy.Map_has.
    by rewrite Hget, bool_decide_eq_true_2.
Qed.

Lemma Legacy_accounts_are_kept_witness :
  let ls := [Legacy.Connect "s";
             Legacy.Receive 5 "s"
               (Legacy.on_register
                  (Legacy.mkUserData "Eve" "alice@example.com" "x"));
             Legacy.Receive 6 "s"
               (Legacy.on_login (Legacy.mkCredentials "alice@example.com" "123456"));
             Legacy.Disconnect "s"] in
  Legacy.Map_get "alice@example.com" (Legacy.users Legacy.initial) =
    Some (Legacy.mkUser "user2" "Alice" "alice@example.com" "123456" false None) ∧
  ∃ u', Legacy.Map_get "alice@example.com"
          (Legacy.users (Legacy.run ls Legacy.initial)) = Some u' ∧
        Legacy.password u' = "123456".
Proof.
  intros ls.
  assert (H : Legacy.Map_get "alice@example.com" (Legacy.users Legacy.initial) =
    Some (Legacy.mkUser "user2" "Alice" "alice@example.com" "123456" false None))
    by reflexivity.
  split; [exact H |].
  destruct (Legacy_accounts_are_kept ls Legacy.initial _ _ H)
    as [(u' & Hu' & _ & _ & _ & Hp) _].
  exists u'. split; [exact Hu' | exact Hp].
Defined.

Lemma Legacy_users_with_users f st :
  Legacy.users (Legacy.with_users f st) = f (Legacy.users st).
Proof. done. Qed.

(** X2.  Register and login compose: after a [register] under a free email
    the socket gets [registered] with the new account, online and bound to
    the socket; a [login] with that email and password from any socket
    succeeds and binds the account to that socket; a [login] with another
    password gets [loginError] and changes nothing. *)
Theorem Legacy_register_then_login (sid sid' p : string) (ud : Legacy.UserData)
    (st : Legacy.Server) :
  Legacy.Map_get (Legacy.ud_email ud) (Legacy.users st) = None →
  let account s :=
    Legacy.mkUser ("user" +:+ pretty (length (Legacy.users st) + 1))
      (Legacy.ud_username ud) (Legacy.ud_email ud) (Legacy.ud_password ud)
      true (Some s) in
  let st1 := (Legacy.register sid ud st).1 in
  (Legacy.register sid ud st).2 = [Legacy.emit sid (Legacy.registered (account sid))] ∧
  Legacy.users st1 = Legacy.users st ++ [(Legacy.ud_email ud, account sid)] ∧
  Legacy.login sid'
    (Legacy.mkCredentials (Legacy.ud_email ud) (Legacy.ud_password ud)) st1 =
    (Legacy.with_users (λ _, Legacy.users st ++ [(Legacy.ud_email ud, account sid')]) st1,
     [Legacy.emit sid' (Legacy.loggedIn (account sid'))]) ∧
  (p ≠ Legacy.ud_password ud →
   Legacy.login sid' (Legacy.mkCredentials (Legacy.ud_email ud) p) st1 =
   (st1, [Legacy.emit sid' (Legacy.loginError "Invalid credentials")])).
Proof.
  intros Hfree account st1.
  assert (Hreg : Legacy.register sid ud st =
    (Legacy.with_users (λ _, Legacy.users st ++ [(Legacy.ud_email ud, account sid)]) st,
     [Legacy.emit sid (Legacy.registered (account sid))])).
  { unfold Legacy.register.
    rewrite (proj2 (Legacy_Map_has_false _ _) Hfree).
    unfold Legacy.with_users. by rewrite (Legacy_Map_set_absent _ _ _ Hfree). }
  unfold st1. rewrite Hreg. cbn [fst snd Legacy.with_users Legacy.users].
  assert (Hget : Legacy.Map_get (Legacy.ud_email ud)
            (Legacy.users st ++ [(Legacy.ud_email ud, account sid)]) =
          Some (account sid)).
  { rewrite <- (Legacy_Map_set_absent _ _ _ Hfree).
    apply Legacy_Map_get_set_eq. }
  repeat split.
  - unfold Legacy.login. cbn [Legacy.cr_email Legacy.cr_password].
    rewrite Legacy_users_with_users, Hget. cbn [Legacy.password account].
    rewrite bool_decide_eq_true_2 by done.
    unfold Legacy.with_users. cbn [Legacy.users].
    by rewrite (Legacy_Map_set_last _ _ _ _ Hfree).
  - intros Hp. unfold Legacy.login. cbn [Legacy.cr_email Legacy.cr_password].
    rewrite Legacy_users_with_users, Hget. cbn [Legacy.password account].
    by rewrite bool_decide_eq_false_2 by done.
Qed.

Lemma Legacy_register_then_login_witness :
  let ud := Legacy.mkUserData "Bob" "bob@example.com" "hunter2" in
  let st1 := (Legacy.register "s1" ud Legacy.initial).1 in
  Legacy.Map_get "bob@example.com" (Legacy.users Legacy.initial) = None ∧
  Legacy.login "s2" (Legacy.mkCredentials "bob@example.com" "wrong") st1 =
  (st1, [Legacy.emit "s2" (Legacy.loginError "Invalid credentials")]).
Proof.
  intros ud st1.
  assert (H : Legacy.Map_get "bob@example.com" (Legacy.users Legacy.initial) = None)
    by reflexivity.
  split; [exact H |].
  destruct (Legacy_register_then_login "s1" "s2" "wrong" ud Legacy.initial H)
    as (_ & _ & _ & Hwrong).
  apply Hwrong. discriminate.
Defined.

(** ** User ids *)

Lemma Legacy_same_entry_keys us us' :
  Forall2 Legacy.same_entry us us' → us'.*1 = us.*1.
Proof.
  induction 1 as [| kv kv' l l' [Hk _] _ IH]; [done |].
  rewrite !fmap_cons. by f_equal.
Qed.

Lemma Legacy_numbered_same us us' :
  Legacy.numbered us → Forall2 Legacy.same_entry us us' → Legacy.numbered us'.
Proof.
  intros Hnum H i k u Hi.
  destruct (Forall2_lookup_r _ _ _ _ _ H Hi) as ([k0 u0] & Hi0 & Hk & Hid & _ & Hem & _).
  simpl in *. subst k0. destruct (Hnum i k u0 Hi0) as [? ?].
  split; congruence.
Qed.

Lemma Legacy_Map_get_None {V} k (m : list (string * V)) :
  Legacy.Map_get k m = None → k ∉ m.*1.
Proof.
  induction m as [| [k' v'] m IH]; [intros _; apply not_elem_of_nil |].
  rewrite Legacy_Map_get_cons, fmap_cons, not_elem_of_cons. simpl.
  destruct (decide (k' = k)); [done |]. intros H. split; [done | by apply IH].
Qed.

Lemma Legacy_step_numbered l st :
  Legacy.numbered (Legacy.users st) → NoDup (Legacy.users st).*1 →
  Legacy.numbered (Legacy.users (Legacy.step l st).1) ∧
  NoDup (Legacy.users (Legacy.step l st).1).*1.
Proof.
  intros Hnum Hnd.
  destruct (Legacy_step_users l st) as [H | (sid & ud & Hfree & ->)].
  - split; [by eapply Legacy_numbered_same |].
    by rewrite (Legacy_same_entry_keys _ _ H).
  - split.
    + intros i k u Hi.
      apply lookup_app_Some in Hi as [Hi | [Hge Hi]]; [by apply Hnum |].
      apply list_lookup_singleton_Some in Hi as [Hi [= <- <-]].
      simpl. split; [| done]. do 2 f_equal. lia.
    + rewrite fmap_app. apply NoDup_app. split; [done |]. split.
      * intros x Hx Hin. apply list_elem_of_singleton in Hin as ->.
        by apply (Legacy_Map_get_None _ _ Hfree).
      * apply NoDup_singleton.
Qed.

Lemma Legacy_numbered_NoDup us :
  Legacy.numbered us → NoDup (Legacy.id <$> Legacy.Map_values us).
Proof.
  intros Hnum. apply NoDup_alt. intros i j x Hi Hj.
  unfold Legacy.Map_values in *. rewrite !list_lookup_fmap in Hi, Hj.
  destruct (us !! i) as [[ki ui]|] eqn:Hui; [| done].
  destruct (us !! j) as [[kj uj]|] eqn:Huj; [| done].
  simpl in *. injection Hi as Hi. injection Hj as Hj.
  destruct (Hnum i ki ui Hui) as [Hidi _], (Hnum j kj uj Huj) as [Hidj _].
  rewrite Hidi in Hi. rewrite Hidj in Hj. subst x.
  simpl in Hj. injection Hj as Hj. simpl in Hj.
  apply (inj (String.append "")) in Hj. apply (inj pretty) in Hj. lia.
Qed.

Lemma Legacy_run_numbered ls st :
  Legacy.numbered (Legacy.users st) → NoDup (Legacy.users st).*1 →
  Legacy.numbered (Legacy.users (Legacy.run ls st)) ∧
  NoDup (Legacy.users (Legacy.run ls st)).*1.
Proof.
  revert st. induction ls as [| l ls IH]; intros st Hnum Hnd; [done |].
  destruct (Legacy_step_numbered l st Hnum Hnd) as [Hnum' Hnd'].
  apply (IH _ Hnum' Hnd').
Qed.

(** X3.  User ids stay distinct.  From a map in which the user at position
    i has the id ['user' + (i + 1)] under its own email and no email occurs
    twice, as in the map the program starts with, every run leads to such
    a map again, so no two users share an id or an email. *)
Theorem Legacy_ids_are_distinct (ls : list Legacy.Label) (st : Legacy.Server) :
  Legacy.numbered (Legacy.users st) →
  NoDup (Legacy.users st).*1 →
  let us := Legacy.users (Legacy.run ls st) in
  Legacy.numbered us ∧ NoDup us.*1 ∧
  NoDup (Legacy.id <$> Legacy.Map_values us).
Proof.
  intros Hnum Hnd us.
  destruct (Legacy_run_numbered ls st Hnum Hnd) as [Hnum' Hnd'].
  split; [done |]. split; [done |]. by apply Legacy_numbered_NoDup.
Qed.

Lemma Legacy_initial_numbered :
  Legacy.numbered (Legacy.users Legacy.initial) ∧
  NoDup (Legacy.users Legacy.initial).*1.
Proof.
  split.
  - intros [| [| i]] k u; simpl; try done; by intros [= <- <-].
  - simpl. compute_done.
Qed.

Lemma Legacy_ids_are_distinct_witness :
  let ls := [Legacy.Connect "s";
             Legacy.Receive 5 "s"
               (Legacy.on_register (Legacy.mkUserData "Bob" "bob@example.com" "pw"));
             Legacy.Receive 6 "s"
               (Legacy.on_register (Legacy.mkUserData "Bob" "bob@example.com" "pw"));
             Legacy.Receive 7 "s"
               (Legacy.on_register (Legacy.mkUserData "Eve" "eve@example.com" "pw"))] in
  Legacy.id <$> Legacy.Map_values (Legacy.users (Legacy.run ls Legacy.initial)) =
    ["user1"; "user2"; "user3"; "user4"] ∧
  NoDup (Legacy.id <$> Legacy.Map_values (Legacy.users (Legacy.run ls Legacy.initial))).
Proof.
  intros ls. split; [vm_compute; reflexivity |].
  exact (proj2 (proj2 (Legacy_ids_are_distinct ls Legacy.initial
                         (proj1 Legacy_initial_numbered)
                         (proj2 Legacy_initial_numbered)))).
Defined.

(** ** Presence in the in-memory server *)

Lemma Legacy_elem_of_Map_set {V} k (v : V) m kv :
  kv ∈ Legacy.Map_set k v m → kv = (k, v) ∨ kv ∈ m.
Proof.
  induction m as [| [k' v'] m IH]; simpl.
  - intros H. apply list_elem_of_singleton in H. by left.
  - destruct (decide (k' = k)).
    + intros H. apply elem_of_cons in H as [-> | H]; [by left |].
      right. by right.
    + intros H. apply elem_of_cons in H as [-> | H]; [right; by left |].
      destruct (IH H) as [-> | ?]; [by left | right; by right].
Qed.

Lemma Legacy_elem_of_update_first {A} P f (l : list A) y :
  y ∈ Legacy.update_first P f l → y ∈ l ∨ ∃ x, x ∈ l ∧ y = f x.
Proof.
  induction l as [| x l IH]; simpl; [by left |].
  destruct (P x).
  - intros H. apply elem_of_cons in H as [-> | H].
    + right. exists x. split; [by left | done].
    + left. by right.
  - intros H. apply elem_of_cons in H as [-> | H]; [left; by left |].
    destruct (IH H) as [? | (x' & ? & ->)]; [left; by right |].
    right. exists x'. split; [by right | done].
Qed.

Lemma Legacy_step_online l st :
  Legacy.online_has_socket st → Legacy.online_has_socket (Legacy.step l st).1.
Proof.
  intros Hinv. destruct l as [sid | now sid ev | sid]; simpl.
  - done.
  - case_bool_decide; [| done].
    destruct ev as [ud | cr | q | md]; simpl; try done.
    + unfold Legacy.register. destruct (Legacy.Map_has _ _); [done |].
      intros k u Hin. simpl in Hin.
      apply Legacy_elem_of_Map_set in Hin as [[= -> ->] | Hin]; [by eexists |].
      by apply (Hinv k u).
    + unfold Legacy.login.
      destruct (Legacy.Map_get _ _) as [user|]; [| done].
      case_bool_decide; [| done].
      intros k u Hin. simpl in Hin.
      apply Legacy_elem_of_Map_set in Hin as [[= -> ->] | Hin]; [by eexists |].
      by apply (Hinv k u).
  - case_bool_decide; [| done].
    intros k u Hin. simpl in Hin.
    apply Legacy_elem_of_update_first in Hin as [Hin | ([k0 u0] & Hin & [= -> ->])].
    + by apply (Hinv k u).
    + done.
Qed.

(** X4.  Once every online user has a socket id, as when nobody is online,
    this stays so in every run: [register] and [login] set [online] together
    with [socketId], and nothing else sets [online]. *)
Theorem Legacy_online_users_have_a_socket (ls : list Legacy.Label)
    (st : Legacy.Server) :
  Legacy.online_has_socket st → Legacy.online_has_socket (Legacy.run ls st).
Proof.
  revert st. induction ls as [| l ls IH]; intros st Hinv; [done |].
  simpl. by apply IH, Legacy_step_online.
Qed.

Lemma Legacy_online_users_have_a_socket_witness :
  let ls := [Legacy.Connect "s";
             Legacy.Receive 5 "s"
               (Legacy.on_login (Legacy.mkCredentials "test@example.com" "password"))] in
  Legacy.online_has_socket Legacy.initial ∧
  Legacy.online_has_socket (Legacy.run ls Legacy.initial) ∧
  Legacy.Map_get "test@example.com" (Legacy.users (Legacy.run ls Legacy.initial)) =
    Some (Legacy.mkUser "user1" "TestUser" "test@example.com" "password" true
            (Some "s")).
Proof.
  intros ls.
  assert (H : Legacy.online_has_socket Legacy.initial).
  { intros k u Hin. simpl in Hin.
    repeat (apply elem_of_cons in Hin as [[= -> ->] | Hin]; [done |]).
    by apply elem_of_nil in Hin. }
  split; [exact H |].
  split; [exact (Legacy_online_users_have_a_socket ls Legacy.initial H) |].
  vm_compute. reflexivity.
Defined.

(** X5.  A disconnect sets one user offline at most: the first user of the
    map whose socket id is the socket's.  Every other entry stays as it
    is, so a further user who logged in on the same socket is still online
    afterwards, bound to a socket that is gone. *)
Theorem Legacy_disconnect_first_only (sid k1 : string) (u1 : Legacy.User)
    (us1 us2 : list (string * Legacy.User)) (st : Legacy.Server) :
  sid ∈ Legacy.sockets st →
  Legacy.users st = us1 ++ (k1, u1) :: us2 →
  Legacy.socketId u1 = Some sid →
  (∀ kv, kv ∈ us1 → Legacy.socketId kv.2 ≠ Some sid) →
  let st' := (Legacy.step (Legacy.Disconnect sid) st).1 in
  Legacy.users st' =
    us1 ++ (k1, Legacy.mkUser (Legacy.id u1) (Legacy.username u1) (Legacy.email u1)
                  (Legacy.password u1) false (Some sid)) :: us2 ∧
  (sid ∉ Legacy.sockets st') ∧
  ∀ k2 u2, (k2, u2) ∈ us2 → Legacy.online u2 = true →
           Legacy.socketId u2 = Some sid →
           (k2, u2) ∈ Legacy.users st' ∧ Legacy.online u2 = true ∧
           Legacy.socketId u2 = Some sid.
Proof.
  intros Hconn Hus Hsock Hbefore st'.
  assert (Husers : Legacy.users st' =
    us1 ++ (k1, Legacy.mkUser (Legacy.id u1) (Legacy.username u1) (Legacy.email u1)
                  (Legacy.password u1) false (Some sid)) :: us2).
  { unfold st'. simpl. rewrite (bool_decide_eq_true_2 _ Hconn). simpl.
    rewrite Hus. clear Hus. induction us1 as [| kv us1 IH]; simpl.
    - by rewrite Hsock, bool_decide_eq_true_2.
    - rewrite bool_decide_eq_false_2 by (apply Hbefore; by left).
      f_equal. apply IH. intros kv' Hin. apply Hbefore. by right. }
  split; [done |]. split.
  - unfold st'. simpl. rewrite (bool_decide_eq_true_2 _ Hconn). simpl.
    intros H. apply elem_of_difference in H as [_ H].
    by apply H, elem_of_singleton.
  - intros k2 u2 Hin Hon Hs. split; [| done].
    rewrite Husers. apply elem_of_app. right. by right.
Qed.

Lemma Legacy_disconnect_first_only_witness :
  let st := Legacy.run
    [Legacy.Connect "s";
     Legacy.Receive 5 "s"
       (Legacy.on_login (Legacy.mkCredentials "test@example.com" "password"));
     Legacy.Receive 6 "s"
       (Legacy.on_login (Legacy.mkCredentials "alice@example.com" "123456"))]
    Legacy.initial in
  let st' := (Legacy.step (Legacy.Disconnect "s") st).1 in
  Legacy.users st' =
    [("test@example.com",
      Legacy.mkUser "user1" "TestUser" "test@example.com" "password" false (Some "s"));
     ("alice@example.com",
      Legacy.mkUser "user2" "Alice" "alice@example.com" "123456" true (Some "s"))] ∧
  ("s" ∉ Legacy.sockets st').
Proof.
  intros st st'.
  destruct (Legacy_disconnect_first_only "s" "test@example.com"
              (Legacy.mkUser "user1" "TestUser" "test@example.com" "password"
                 true (Some "s"))
              []
              [("alice@example.com",
                Legacy.mkUser "user2" "Alice" "alice@example.com" "123456" true
                  (Some "s"))] st) as (Hus & Hgone & _).
  - vm_compute. reflexivity.
  - vm_compute. reflexivity.
  - reflexivity.
  - intros kv Hin. by apply elem_of_nil in Hin.
  - split; [exact Hus | exact Hgone].
Defined.

(** ** Search *)

Lemma Legacy_prefix_refl s : String.prefix s s = true.
Proof.
  induction s as [| a s IH]; [done |]. simpl.
  by destruct (Ascii.ascii_dec a a).
Qed.

Lemma Legacy_includes_refl s : Legacy.includes s s = true.
Proof.
  destruct s as [| a s]; [done |]. cbn [Legacy.includes].
  by rewrite Legacy_prefix_refl.
Qed.

Lemma Legacy_includes_empty s : Legacy.includes "" s = true.
Proof. by destruct s. Qed.

(** X6.  [searchContacts] changes nothing and answers with stored user
    objects, passwords included, and only with those: the empty query
    lists every user, and a user is found by its full email and by its
    full username. *)
Theorem Legacy_search_finds (sid : string) (st : Legacy.Server) :
  Legacy.searchContacts sid "" st =
    (st, [Legacy.emit sid (Legacy.contactResults (Legacy.Map_values (Legacy.users st)))]) ∧
  ∀ k u q, (k, u) ∈ Legacy.users st →
    q = Legacy.email u ∨ q = Legacy.username u →
    ∃ results,
      Legacy.searchContacts sid q st =
        (st, [Legacy.emit sid (Legacy.contactResults results)]) ∧
      u ∈ results ∧ results ⊆ Legacy.Map_values (Legacy.users st).
Proof.
  split.
  - assert (Hall : ∀ l : list Legacy.User,
              filter (λ user, Legacy.includes "" (Legacy.email user)
                              || Legacy.includes "" (Legacy.username user) = true) l = l).
    { induction l as [| u l IH]; [done |].
      rewrite filter_cons, decide_True; [by f_equal |].
      by rewrite Legacy_includes_empty. }
    unfold Legacy.searchContacts. by rewrite Hall.
  - intros k u q Hin Hq. eexists. split; [reflexivity |]. split.
    + apply list_elem_of_filter. split.
      * destruct Hq as [-> | ->]; rewrite Legacy_includes_refl; [done |].
        apply orb_true_r.
      * unfold Legacy.Map_values. apply list_elem_of_fmap.
        by exists (k, u).
    + intros x Hx. by apply list_elem_of_filter in Hx as [_ Hx].
Qed.

Lemma Legacy_search_finds_witness :
  ∃ results,
    Legacy.searchContacts "s" "Alice" Legacy.initial =
      (Legacy.initial, [Legacy.emit "s" (Legacy.contactResults results)]) ∧
    Legacy.mkUser "user2" "Alice" "alice@example.com" "123456" false None ∈ results.
Proof.
  destruct (proj2 (Legacy_search_finds "s" Legacy.initial) "alice@example.com"
              (Legacy.mkUser "user2" "Alice" "alice@example.com" "123456" false None)
              "Alice") as (results & Hres & Hin & _).
  - right. left.
  - by right.
  - exists results. split; [exact Hres | exact Hin].
Defined.

(** ** Messages of the in-memory server *)

Lemma Legacy_keeps_messages_trans ms1 ms2 ms3 :
  Legacy.keeps_messages ms1 ms2 → Legacy.keeps_messages ms2 ms3 →
  Legacy.keeps_messages ms1 ms3.
Proof.
  intros H12 H23 k l Hl.
  destruct (H12 k l Hl) as (more & Hm).
  destruct (H23 k _ Hm) as (more' & Hm').
  exists (more ++ more'). by rewrite app_assoc.
Qed.

(** What [sendMessage] stores: the new message after the messages the
    chat had, and every other chat as it was. *)
Lemma Legacy_sendMessage_messages now sid md st k :
  Legacy.Map_get k (Legacy.messages (Legacy.sendMessage now sid md st).1) =
  if decide (Legacy.md_chatId md = k)
  then Some (default [] (Legacy.Map_get k (Legacy.messages st)) ++
             [Legacy.mkMessage (Legacy.md_chatId md) (Legacy.md_recipientId md)
                (Legacy.md_body md) now (pretty now)])
  else Legacy.Map_get k (Legacy.messages st).
Proof.
  unfold Legacy.sendMessage. cbn [fst Legacy.with_messages Legacy.messages].
  destruct (decide (Legacy.md_chatId md = k)) as [<- | Hne].
  - rewrite Legacy_Map_get_set_eq. do 2 f_equal.
    destruct (Legacy.Map_has _ _) eqn:Hhas; [done |].
    apply Legacy_Map_has_false in Hhas.
    by rewrite Legacy_Map_get_set_eq, Hhas.
  - rewrite Legacy_Map_get_set_ne by done.
    destruct (Legacy.Map_has _ _); [done |].
    by rewrite Legacy_Map_get_set_ne.
Qed.

Lemma Legacy_step_keeps_messages l st :
  Legacy.keeps_messages (Legacy.messages st) (Legacy.messages (Legacy.step l st).1).
Proof.
  assert (Hrefl : Legacy.keeps_messages (Legacy.messages st) (Legacy.messages st)).
  { intros k m Hm. exists []. by rewrite app_nil_r. }
  destruct l as [sid | now sid ev | sid]; cbn [Legacy.step]; [done | |].
  - case_bool_decide; [| done].
    destruct ev as [ud | cr | q | md].
    + unfold Legacy.register. by destruct (Legacy.Map_has _ _).
    + unfold Legacy.login. destruct (Legacy.Map_get _ _); [| done].
      by case_bool_decide.
    + done.
    + intros k m Hm. rewrite Legacy_sendMessage_messages.
      destruct (decide (Legacy.md_chatId md = k)); [| by exists []; rewrite app_nil_r].
      rewrite Hm. simpl. eauto.
  - by case_bool_decide.
Qed.

(** X7.  Stored messages are never removed, changed or reordered: after
    every run each chat has the messages it had, in order, followed by the
    ones sent since.  A [sendMessage] adds its message at the end of the
    chat named in the payload, creating the chat when it is new. *)
Theorem Legacy_messages_are_kept (ls : list Legacy.Label) (st : Legacy.Server) :
  Legacy.keeps_messages (Legacy.messages st) (Legacy.messages (Legacy.run ls st)) ∧
  ∀ now sid md,
    Legacy.Map_get (Legacy.md_chatId md)
      (Legacy.messages (Legacy.sendMessage now sid md st).1) =
    Some (default [] (Legacy.Map_get (Legacy.md_chatId md) (Legacy.messages st)) ++
          [Legacy.mkMessage (Legacy.md_chatId md) (Legacy.md_recipientId md)
             (Legacy.md_body md) now (pretty now)]).
Proof.
  split.
  - revert st. induction ls as [| l ls IH]; intros st.
    + intros k m Hm. exists []. by rewrite app_nil_r.
    + simpl. eapply Legacy_keeps_messages_trans; [| apply IH].
      apply Legacy_step_keeps_messages.
  - intros now sid md. by rewrite Legacy_sendMessage_messages, decide_True.
Qed.

Lemma Legacy_messages_are_kept_witness :
  let hello := Legacy.mkMessageData "c" "user2" "hello" in
  let again := Legacy.mkMessageData "c" "user9" "again" in
  let ls := [Legacy.Connect "s"; Legacy.Receive 5 "s" (Legacy.on_sendMessage hello);
             Legacy.Receive 6 "s" (Legacy.on_sendMessage again);
             Legacy.Disconnect "s"] in
  Legacy.Map_get "c" (Legacy.messages (Legacy.run ls Legacy.initial)) =
    Some [Legacy.mkMessage "c" "user2" "hello" 5 "5";
          Legacy.mkMessage "c" "user9" "again" 6 "6"] ∧
  Legacy.keeps_messages (Legacy.messages Legacy.initial)
    (Legacy.messages (Legacy.run ls Legacy.initial)).
Proof.
  intros hello again ls. split; [vm_compute; reflexivity |].
  exact (proj1 (Legacy_messages_are_kept ls Legacy.initial)).
Defined.

Lemma Legacy_head_filter_unique {A B} `{EqDecision B} (f : A → B) (l : list A) u :
  NoDup (f <$> l) → u ∈ l → head (filter (λ x, f x = f u) l) = Some u.
Proof.
  induction l as [| x l IH]; intros Hnd Hin; [by apply elem_of_nil in Hin |].
  rewrite fmap_cons in Hnd. apply NoDup_cons in Hnd as [Hx Hnd].
  rewrite filter_cons. apply elem_of_cons in Hin as [<- | Hin].
  - by rewrite decide_True.
  - rewrite decide_False; [by apply IH |].
    intros Heq. apply Hx. rewrite Heq. apply list_elem_of_fmap. by exists u.
Qed.

(** X8.  In a map with numbered users, a [sendMessage] addressed to the id
    of a stored user finds that user: the message goes to the room of the
    user's socket exactly when the user is online, and the sender gets
    [messageSent] in either case.  Addressed to an id that no user has, it
    is stored and acknowledged all the same and goes to nobody.  The
    sender is not looked up at all. *)
Theorem Legacy_message_reaches_recipient (now : Z) (sid : string)
    (md : Legacy.MessageData) (st : Legacy.Server) :
  Legacy.numbered (Legacy.users st) →
  let message :=
    Legacy.mkMessage (Legacy.md_chatId md) (Legacy.md_recipientId md)
      (Legacy.md_body md) now (pretty now) in
  (∀ k u, (k, u) ∈ Legacy.users st → Legacy.md_recipientId md = Legacy.id u →
     (Legacy.sendMessage now sid md st).2 =
     (if Legacy.online u
      then [Legacy.io_to_emit (Legacy.socketId u) (Legacy.newMessage message)]
      else []) ++ [Legacy.emit sid (Legacy.messageSent message)]) ∧
  ((∀ k u, (k, u) ∈ Legacy.users st → Legacy.md_recipientId md ≠ Legacy.id u) →
   (Legacy.sendMessage now sid md st).2 =
     [Legacy.emit sid (Legacy.messageSent message)]).
Proof.
  intros Hnum message. split.
  - intros k u Hin Hid. subst message.
    unfold Legacy.sendMessage. cbn [snd]. rewrite Hid.
    rewrite (Legacy_head_filter_unique Legacy.id _ u).
    + done.
    + by apply Legacy_numbered_NoDup.
    + unfold Legacy.Map_values. apply list_elem_of_fmap. by exists (k, u).
  - intros Hnone. unfold Legacy.sendMessage. cbn [snd].
    destruct (head _) as [r|] eqn:Hhead; [| done].
    apply head_Some_elem_of, list_elem_of_filter in Hhead as [Hid Hr].
    unfold Legacy.Map_values in Hr.
    apply list_elem_of_fmap in Hr as ([k u] & -> & Hin).
    by destruct (Hnone k u Hin).
Qed.

Lemma Legacy_message_reaches_recipient_witness :
  let st := Legacy.run
    [Legacy.Connect "a"; Legacy.Connect "s";
     Legacy.Receive 5 "a"
       (Legacy.on_login (Legacy.mkCredentials "alice@example.com" "123456"))]
    Legacy.initial in
  let md := Legacy.mkMessageData "c" "user2" "hello" in
  let message := Legacy.mkMessage "c" "user2" "hello" 6 "6" in
  Legacy.numbered (Legacy.users st) ∧
  (Legacy.sendMessage 6 "s" md st).2 =
    [Legacy.io_to_emit (Some "a") (Legacy.newMessage message);
     Legacy.emit "s" (Legacy.messageSent message)].
Proof.
  intros st md message.
  assert (Hnum : Legacy.numbered (Legacy.users st)).
  { apply Legacy_run_numbered; apply Legacy_initial_numbered. }
  split; [exact Hnum |].
  exact (proj1 (Legacy_message_reaches_recipient 6 "s" md st Hnum)
           "alice@example.com"
           (Legacy.mkUser "user2" "Alice" "alice@example.com" "123456" true (Some "a"))
           ltac:(vm_compute; right; left) eq_refl).
Defined.

(** * The socket layer: further facts *)

(** ** What the socket layer leaves alone *)

Lemma same_content_refl m : same_content m m.
Proof. by repeat split. Qed.

Lemma step_same_content l st i m :
  messages st !! i = Some m →
  ∃ m', messages (server (step l st)) !! i = Some m' ∧ same_content m m'.
Proof.
  intros Hm. destruct l as [sid decoded | now sid ev | now sid |]; cbn [step].
  - destruct (socketAuth decoded st) as [[uid u]|];
      exists m; split; [done | apply same_content_refl | done | apply same_content_refl].
  - destruct (sockets st !! sid) as [sk|];
      [| exists m; split; [done | apply same_content_refl]].
    exists m. split; [| apply same_content_refl].
    destruct (handle_messages now sid sk ev st)
      as [[-> _] | (m0 & room & _ & -> & _)]; [done |].
    by apply lookup_app_l_Some.
  - destruct (sockets st !! sid) as [sk|];
      exists m; split; [done | apply same_content_refl | done | apply same_content_refl].
  - destruct (timers st) as [| t ts];
      [exists m; split; [done | apply same_content_refl] |].
    simpl. destruct (decide (t_message t = i)) as [<- | Hne].
    + rewrite list_lookup_alter_eq, Hm. eexists. split; [done |].
      by repeat split.
    + rewrite list_lookup_alter_ne by done.
      exists m. split; [done | apply same_content_refl].
Qed.

(** X10.  A stored message keeps its place and its content: after any run
    the message with a given id is still there with the chat, sender,
    text, kind and creation time it was stored with; only [status] can
    differ.  No step deletes or rewrites a message. *)
Theorem messages_keep_their_content (ls : list Label) (st : Server) (i : nat)
    (m : Message) :
  messages st !! i = Some m →
  ∃ m', messages (run ls st) !! i = Some m' ∧ same_content m m'.
Proof.
  revert st m. induction ls as [| l ls IH]; intros st m Hm.
  - exists m. split; [done | apply same_content_refl].
  - destruct (step_same_content l st i m Hm) as (m1 & Hm1 & Hc1).
    destruct (IH _ _ Hm1) as (m2 & Hm2 & Hc2).
    exists m2. split; [done |].
    destruct Hc1 as (? & ? & ? & ? & ?), Hc2 as (? & ? & ? & ? & ?).
    repeat split; congruence.
Qed.

Lemma messages_keep_their_content_witness :
  let st := server (step (Receive 7 "s1" (on_send_message (Scenario.hi Scenario.c1)))
                      Scenario.all_connected) in
  let ls := [Timeout; Disconnect 8 "s1";
             Receive 9 "s2" (on_send_message (Scenario.hi Scenario.c1)); Timeout] in
  messages st !! 0 = Some (mkMessage Scenario.c1 "u1" "hi" "text" sent 7) ∧
  ∃ m', messages (run ls st) !! 0 = Some m' ∧ text m' = "hi" ∧ sender m' = "u1".
Proof.
  intros st ls.
  assert (H : messages st !! 0 = Some (mkMessage Scenario.c1 "u1" "hi" "text" sent 7))
    by (vm_compute; reflexivity).
  split; [exact H |].
  destruct (messages_keep_their_content ls st 0 _ H) as (m' & Hm' & _ & Hs & Ht & _).
  exists m'. split; [exact Hm' |]. split; [exact Ht | exact Hs].
Defined.

Lemma step_documents l st :
  (∀ uid, username <$> users (server (step l st)) !! uid = username <$> users st !! uid) ∧
  (∀ c, participants <$> chats (server (step l st)) !! c = participants <$> chats st !! c).
Proof.
  destruct l as [sid decoded | now sid ev | now sid |]; cbn [step].
  - destruct (socketAuth decoded st) as [[uid u]|]; [| done].
    split; [| done]. intros v. rewrite connection_users.
    destruct (decide (uid = v)); [| done].
    by destruct (users st !! v).
  - destruct (sockets st !! sid) as [sk|]; [| done].
    destruct (handle_frame now sid sk ev st) as (_ & Hu & Hc).
    split; [| done]. intros uid. by rewrite Hu.
  - destruct (sockets st !! sid) as [sk|]; [| done].
    split; [| done]. intros v. rewrite disconnect_users.
    destruct (decide (userId sk = v)); [| done].
    by destruct (users st !! v).
  - by destruct (timers st).
Qed.

(** X11.  The socket layer never creates or deletes a user or a chat,
    never renames a user and never changes who participates in a chat:
    after any run every user id has the username it had (or still none)
    and every chat id the participants it had (or still none). *)
Theorem documents_are_kept (ls : list Label) (st : Server) :
  (∀ uid, username <$> users (run ls st) !! uid = username <$> users st !! uid) ∧
  (∀ c, participants <$> chats (run ls st) !! c = participants <$> chats st !! c).
Proof.
  revert st. induction ls as [| l ls IH]; intros st; [done |].
  destruct (IH (server (step l st))) as [Hu Hc].
  destruct (step_documents l st) as [Hu' Hc'].
  simpl. split; intros k; [rewrite Hu | rewrite Hc]; done.
Qed.

(** ** When a send stores a message *)

Lemma Message_validate_Some (t : option string) (mt txt : string) :
  Message_validate t mt = Some txt ↔
  t = Some txt ∧ txt ≠ "" ∧ mt ∈ messageType_enum.
Proof.
  unfold Message_validate, text_required. destruct t as [s|]; simpl.
  - destruct (decide (s = "")) as [-> | Hs].
    + split; [intros [=] | intros ([= <-] & Hne & _); done].
    + rewrite (bool_decide_eq_false_2 _ Hs). simpl. case_bool_decide.
      * split; [intros [= ->]; done | intros ([= ->] & _ & _); done].
      * split; [intros [=] | intros (_ & _ & ?); done].
  - split; [intros [=] | intros ([=] & _)].
Qed.

Lemma step_senders_known l st : senders_known st → senders_known (server (step l st)).
Proof.
  intros Hinv. destruct (step_documents l st) as [Hu _].
  assert (Hdoc : ∀ uid, is_Some (users st !! uid) →
                        is_Some (users (server (step l st)) !! uid)).
  { intros uid Hsome. specialize (Hu uid).
    destruct Hsome as [u Hsome]. rewrite Hsome in Hu.
    destruct (users (server (step l st)) !! uid); [by eexists | done]. }
  intros x skx Hx. apply Hdoc.
  destruct l as [sid decoded | now sid ev | now sid |]; cbn [step] in Hx.
  - destruct (socketAuth decoded st) as [[uid u]|] eqn:Hauth; [| by apply (Hinv x)].
    simpl in Hx. destruct (decide (sid = x)) as [<- | Hne].
    + rewrite lookup_insert_eq in Hx. injection Hx as <-. simpl.
      unfold socketAuth in Hauth. destruct decoded as [uid'|]; [| done].
      simpl in Hauth. destruct (users st !! uid') as [u'|] eqn:Hu'; [| done].
      simpl in Hauth. injection Hauth as -> ->. by eexists.
    + rewrite lookup_insert_ne in Hx by done. by apply (Hinv x).
  - destruct (sockets st !! sid) as [sk|]; [| by apply (Hinv x)].
    destruct (handle_frame now sid sk ev st) as (Hs & _ & _).
    rewrite Hs in Hx. by apply (Hinv x).
  - destruct (sockets st !! sid) as [sk|]; [| by apply (Hinv x)].
    simpl in Hx. apply lookup_delete_Some in Hx as [_ Hx]. by apply (Hinv x).
  - destruct (timers st) as [| t ts]; by apply (Hinv x).
Qed.

Lemma run_senders_known ls st : senders_known st → senders_known (run ls st).
Proof.
  revert st. induction ls as [| l ls IH]; intros st Hinv; [done |].
  simpl. by apply IH, step_senders_known.
Qed.

(** X12.  A send is all or nothing, and the payload decides.  In a state
    where the users of the connected sockets have documents (a property
    every run keeps), [send_message] stores a message, as [sent], and
    emits [new_message] and [message_sent] exactly when the chat id casts
    to the id of a chat, the sender participates in it, the text is a
    non-empty string and the kind is text, call or system; in every other
    case the state stays as it was and the sender gets one [error]. *)
Theorem send_stores_exactly_when (now : Z) (sid : string) (sk : Socket)
    (data : option SendData) (st : Server) :
  senders_known st →
  sockets st !! sid = Some sk →
  let r := step (Receive now sid (on_send_message data)) st in
  (sendable sk data st →
   (∃ m, messages (server r) = messages st ++ [m] ∧ status m = sent) ∧
   ∃ room fm, emitted r =
     [to_emit sid room (new_message fm); emit sid (message_sent fm)]) ∧
  (¬ sendable sk data st →
   server r = st ∧ ∃ msg, emitted r = [emit sid (error msg)]) ∧
  ∀ ls, senders_known (run ls st).
Proof.
  intros Hknown Hsk r. unfold r. cbn [step]. rewrite Hsk. cbn [handle].
  destruct (Hknown sid sk Hsk) as [u Hu].
  split; [| split; [| intros ls; by apply run_senders_known]].
  - intros (d & oid & chat & txt & -> & Hcast & Hchat & Hmember & Htext & Hne & Hkind).
    assert (Hvalid : Message_validate (d_text d) (default "text" (d_messageType d))
                     = Some txt) by (by apply Message_validate_Some).
    rewrite (send_ok now sid sk st d oid chat txt u Hcast Hchat Hmember Hvalid Hu).
    split; [by eexists | by eexists _, _].
  - intros Hnot.
    destruct (send_message_cases now sid sk data st)
      as [-> | [-> | (d & oid & chat & txt & -> & Hcast & Hchat & Hmember & Hvalid & _)]];
      [by eauto | by eauto |].
    destruct Hnot. apply Message_validate_Some in Hvalid as (Ht & Hne & Hkind).
    by exists d, oid, chat, txt.
Qed.

Lemma send_stores_exactly_when_witness :
  let st := Scenario.all_connected in
  let media := Some (mkSendData Scenario.c1 (Some "hi") (Some "media")) in
  let r := step (Receive 7 "s1" (on_send_message media)) st in
  senders_known st ∧ ¬ sendable Scenario.s1 media st ∧
  server r = st ∧ ∃ msg, emitted r = [emit "s1" (error msg)].
Proof.
  intros st media r.
  assert (Hknown : senders_known st).
  { apply (run_senders_known
             [Connect "s1" (Some "u1"); Connect "s2" (Some "u2");
              Connect "s3" (Some "u3")] Scenario.db).
    intros sid sk Hsk. unfold Scenario.db in Hsk. simpl in Hsk.
    by rewrite lookup_empty in Hsk. }
  assert (Hsk : sockets st !! "s1" = Some Scenario.s1) by (vm_compute; reflexivity).
  assert (Hnot : ¬ sendable Scenario.s1 media st).
  { intros (d & oid & chat & txt & [= <-] & _ & _ & _ & _ & _ & Hkind).
    simpl in Hkind.
    repeat (apply elem_of_cons in Hkind as [[=] | Hkind]).
    by apply elem_of_nil in Hkind. }
  split; [exact Hknown |]. split; [exact Hnot |].
  exact (proj1 (proj2 (send_stores_exactly_when 7 "s1" Scenario.s1 media st
                         Hknown Hsk)) Hnot).
Defined.

(** ** Rooms and participants *)

Lemma participants_equiv st st' :
  (∀ c, participants <$> chats st' !! c = participants <$> chats st !! c) →
  ∀ c uid,
    (∃ chat, chats st' !! c = Some chat ∧ uid ∈ participants chat) ↔
    (∃ chat, chats st !! c = Some chat ∧ uid ∈ participants chat).
Proof.
  intros Hc c uid. specialize (Hc c).
  destruct (chats st' !! c) as [chat'|], (chats st !! c) as [chat|]; simpl in Hc;
    try done.
  injection Hc as Hc.
  split; intros (ch & [= <-] & Hin); eexists; split; try done; congruence.
Qed.

Lemma step_rooms l st :
  enabled l st → rooms_follow_chats st → rooms_follow_chats (server (step l st)).
Proof.
  intros Hen Hinv.
  destruct (step_documents l st) as [_ Hc].
  pose proof (participants_equiv st _ Hc) as Heq.
  assert (Hnone : ∀ x, chats st !! x = None → chats (server (step l st)) !! x = None).
  { intros x Hx. specialize (Hc x). rewrite Hx in Hc.
    by destruct (chats (server (step l st)) !! x). }
  assert (Hold : ∀ x skx, sockets st !! x = Some skx →
            chats (server (step l st)) !! x = None ∧
            ∀ c, c ∈ rooms skx ↔
                 c = x ∨ ∃ chat, chats (server (step l st)) !! c = Some chat ∧
                                 userId skx ∈ participants chat).
  { intros x skx Hx. destruct (Hinv x skx Hx) as [Hn Hr].
    split; [by apply Hnone |]. intros c. rewrite Hr. by rewrite Heq. }
  intros x skx Hx.
  destruct l as [sid decoded | now sid ev | now sid |]; cbn [step] in *.
  - destruct Hen as (Hfresh & Hnochat & _).
    destruct (socketAuth decoded st) as [[uid u]|]; [| by apply Hold].
    simpl in Hx. destruct (decide (sid = x)) as [<- | Hne].
    + rewrite lookup_insert_eq in Hx. injection Hx as <-.
      split; [by apply Hnone |]. intros c. simpl.
      rewrite elem_of_union, elem_of_singleton, elem_of_Chat_find. done.
    + rewrite lookup_insert_ne in Hx by done. by apply Hold.
  - destruct (sockets st !! sid) as [sk|]; [| by apply Hold].
    destruct (handle_frame now sid sk ev st) as (Hs & _ & _).
    rewrite Hs in Hx. by apply Hold.
  - destruct (sockets st !! sid) as [sk|]; [| by apply Hold].
    simpl in Hx. apply lookup_delete_Some in Hx as [_ Hx]. by apply Hold.
  - destruct (timers st) as [| t ts]; by apply Hold.
Qed.

Lemma run_rooms ls st :
  valid_run ls st → rooms_follow_chats st → rooms_follow_chats (run ls st).
Proof.
  revert st. induction ls as [| l ls IH]; intros st Hvalid Hinv; [done |].
  destruct Hvalid as [Hen Hvalid]. simpl.
  apply IH; [done |]. by apply step_rooms.
Qed.

Lemma step_ids l st :
  enabled l st → ids_canonical st → ids_canonical (server (step l st)).
Proof.
  intros Hen [Hchats Hsocks].
  destruct (step_documents l st) as [_ Hc].
  split.
  - intros c chat Hchat. specialize (Hc c). rewrite Hchat in Hc.
    destruct (chats st !! c) as [chat0|] eqn:Hchat0; [| done].
    by apply (Hchats c chat0).
  - intros x skx Hx.
    destruct l as [sid decoded | now sid ev | now sid |]; cbn [step] in Hx.
    + destruct Hen as (_ & _ & Hnocast).
      destruct (socketAuth decoded st) as [[uid u]|]; [| by apply (Hsocks x skx)].
      simpl in Hx. destruct (decide (sid = x)) as [<- | Hne]; [done |].
      rewrite lookup_insert_ne in Hx by done. by apply (Hsocks x skx).
    + destruct (sockets st !! sid) as [sk|]; [| by apply (Hsocks x skx)].
      destruct (handle_frame now sid sk ev st) as (Hs & _ & _).
      rewrite Hs in Hx. by apply (Hsocks x skx).
    + destruct (sockets st !! sid) as [sk|]; [| by apply (Hsocks x skx)].
      simpl in Hx. apply lookup_delete_Some in Hx as [_ Hx].
      by apply (Hsocks x skx).
    + destruct (timers st) as [| t ts]; by apply (Hsocks x skx).
Qed.

Lemma run_ids ls st :
  valid_run ls st → ids_canonical st → ids_canonical (run ls st).
Proof.
  revert st. induction ls as [| l ls IH]; intros st Hvalid Hinv; [done |].
  destruct Hvalid as [Hen Hvalid]. simpl.
  apply IH; [done |]. by apply step_ids.
Qed.

(** What every run from a state without connections keeps. *)
Lemma run_coherent ls st0 :
  sockets st0 = ∅ → ids_canonical st0 → valid_run ls st0 →
  rooms_follow_chats (run ls st0) ∧ ids_canonical (run ls st0) ∧
  senders_known (run ls st0).
Proof.
  intros Hempty Hids Hvalid. split; [| split].
  - apply run_rooms; [done |].
    intros y sky Hy. by rewrite Hempty, lookup_empty in Hy.
  - by apply run_ids.
  - apply run_senders_known.
    intros y sky Hy. by rewrite Hempty, lookup_empty in Hy.
Qed.

Lemma Scenario_db_ids : ids_canonical Scenario.db.
Proof.
  split.
  - intros c chat H. unfold Scenario.db in H. simpl in H.
    repeat (apply lookup_insert_Some in H as [[<- _] | [_ H]];
            [vm_compute; reflexivity |]).
    by rewrite lookup_empty in H.
  - intros x skx H. unfold Scenario.db in H. simpl in H.
    by rewrite lookup_empty in H.
Qed.

(** The sockets that [socket.to(chatId)] of a send reaches: when the
    payload spells the id as the chat's room is named, the other connected
    sockets of the participants; under any other spelling, none. *)
Lemma room_of_send st sid d oid chat :
  rooms_follow_chats st → ids_canonical st →
  ObjectId_cast (d_chatId d) = Some oid →
  chats st !! oid = Some chat →
  ∀ x, x ∈ room_others st sid (d_chatId d) ↔
       d_chatId d = oid ∧ x ≠ sid ∧
       ∃ skx, sockets st !! x = Some skx ∧ userId skx ∈ participants chat.
Proof.
  intros Hrooms [Hchats Hsocks] Hcast Hchat x.
  rewrite elem_of_room_others. split.
  - intros (Hne & skx & Hx & Hroom).
    destruct (Hrooms x skx Hx) as [_ Hin].
    apply Hin in Hroom as [Heq | (chat' & Hchat' & Hp)].
    + rewrite Heq in Hcast. rewrite (Hsocks x skx Hx) in Hcast. done.
    + assert (d_chatId d = oid) as Heq.
      { apply Hchats in Hchat'. rewrite Hchat' in Hcast. by injection Hcast. }
      split; [done |]. split; [done |]. exists skx. split; [done |].
      rewrite Heq in Hchat'. congruence.
  - intros (Heq & Hne & skx & Hx & Hp). split; [done |].
    exists skx. split; [done |].
    apply (Hrooms x skx Hx). right. exists chat. by rewrite Heq.
Qed.




(** X13.  Fan-out follows participation, and the spelling of the id.
    Start without connections and let connections come and go and events
    happen in any order.  A send whose chat id casts to the id of a chat
    of the sender stores its message under the cast id, whatever the
    spelling.  Its [new_message] goes to the room named by the payload as
    it came: spelled as the id is stored, it is delivered to every
    connected socket of every participant except the sending socket, the
    sender's other connections included, and to no other socket; spelled
    otherwise (a hexadecimal letter in upper case), it is delivered to
    nobody. *)
Theorem new_message_reaches_participants (ls : list Label) (st0 : Server)
    (now : Z) (sid : string) (sk : Socket) (d : SendData) (oid : string)
    (chat : Chat) (txt : string) (u : User) :
  sockets st0 = ∅ → ids_canonical st0 →
  valid_run ls st0 →
  let st := run ls st0 in
  sockets st !! sid = Some sk →
  ObjectId_cast (d_chatId d) = Some oid →
  chats st !! oid = Some chat →
  userId sk ∈ participants chat →
  Message_validate (d_text d) (default "text" (d_messageType d)) = Some txt →
  users st !! userId sk = Some u →
  let r := step (Receive now sid (on_send_message (Some d))) st in
  messages (server r) = messages st ++ [saved now sk oid d txt] ∧
  ∀ x, (x, new_message (sent_event now sk st oid d txt u))
         ∈ deliveries (server r) (emitted r) ↔
       d_chatId d = oid ∧ x ≠ sid ∧
       ∃ skx, sockets st !! x = Some skx ∧ userId skx ∈ participants chat.
Proof.
  intros Hempty Hids Hvalid st Hsk Hcast Hchat Hmember Hval Hu r.
  destruct (run_coherent ls st0 Hempty Hids Hvalid) as (Hrooms & Hids' & _).
  fold st in Hrooms, Hids'.
  unfold r. cbn [step]. rewrite Hsk. cbn [handle].
  rewrite (send_ok now sid sk st d oid chat txt u Hcast Hchat Hmember Hval Hu).
  split; [done |]. intros x.
  cbn [server emitted returned]. rewrite send_ok_deliveries.
  rewrite elem_of_app, list_elem_of_singleton, list_elem_of_fmap.
  rewrite <- (room_of_send st sid d oid chat Hrooms Hids' Hcast Hchat x).
  split.
  - by intros [(y & [= <-] & Hy) | [=]].
  - intros Hx. left. by exists x.
Qed.

Lemma new_message_reaches_participants_witness :
  let ls := [Connect "s1" (Some "u1"); Connect "s2" (Some "u2");
             Connect "s3" (Some "u3"); Connect "s9" (Some "u1")] in
  let st := run ls Scenario.db in
  let send c := step (Receive 7 "s1" (on_send_message (Scenario.hi c))) st in
  let fm := mkFormatted 0 "hi" false 7 delivered "text" "alice" "u1" in
  valid_run ls Scenario.db ∧
  deliveries (server (send Scenario.c2)) (emitted (send Scenario.c2)) =
    [("s9", new_message fm); ("s2", new_message fm); ("s1", message_sent fm)] ∧
  ObjectId_cast Scenario.C1 = Some Scenario.c1 ∧
  messages (server (send Scenario.C1)) =
    [mkMessage Scenario.c1 "u1" "hi" "text" sent 7] ∧
  ("s2", new_message fm) ∉ deliveries (server (send Scenario.C1))
                              (emitted (send Scenario.C1)).
Proof.
  intros ls st send fm.
  assert (Hvalid : valid_run ls Scenario.db) by (repeat split; vm_compute; reflexivity).
  split; [exact Hvalid |]. split; [vm_compute; reflexivity |].
  split; [vm_compute; reflexivity |].
  destruct (new_message_reaches_participants ls Scenario.db 7 "s1" Scenario.s1
              (mkSendData Scenario.C1 (Some "hi") None) Scenario.c1
              (mkChat ["u1"; "u2"; "u3"] None) "hi"
              (mkUser "alice" true 0 (Some "s9"))
              eq_refl Scenario_db_ids Hvalid) as [Hm Hnews].
  - vm_compute. reflexivity.
  - vm_compute. reflexivity.
  - vm_compute. reflexivity.
  - apply list_elem_of_here.
  - reflexivity.
  - vm_compute. reflexivity.
  - split; [exact Hm |]. intros Hin.
    apply (Hnews "s2") in Hin as [Heq _]. discriminate Heq.
Defined.

(** ** Timers *)

Lemma run_timeouts (ts : list Timer) : ∀ st,
  timers st = ts →
  let st' := run (replicate (length ts) Timeout) st in
  timers st' = [] ∧ sockets st' = sockets st ∧ users st' = users st ∧
  chats st' = chats st ∧
  ∀ i, messages st' !! i =
       (if bool_decide (i ∈ t_message <$> ts) then set_status delivered else id)
         <$> messages st !! i.
Proof.
  induction ts as [| t ts IH]; intros st Hts.
  - cbn [length replicate run]. repeat split; try done. intros i.
    rewrite fmap_nil, bool_decide_eq_false_2 by apply not_elem_of_nil.
    by destruct (messages st !! i).
  - cbn [length replicate run]. cbn [step]. rewrite Hts.
    cbn [status_timeout server returned].
    destruct (IH (Message_findByIdAndUpdate (t_message t) delivered
                    (with_timers (λ _, ts) st)) eq_refl)
      as (Ht & Hs & Hu & Hc & Hm).
    repeat split; try done.
    intros i. rewrite Hm, fmap_cons.
    cbn [Message_findByIdAndUpdate with_messages with_timers messages].
    destruct (decide (t_message t = i)) as [<- | Hne].
    + rewrite list_lookup_alter_eq.
      rewrite (bool_decide_eq_true_2 (_ ∈ _ :: _)) by apply list_elem_of_here.
      destruct (messages st !! t_message t) as [m|]; [| done]. simpl.
      by case_bool_decide.
    + rewrite list_lookup_alter_ne by done.
      assert (bool_decide (i ∈ t_message t :: (t_message <$> ts)) =
              bool_decide (i ∈ t_message <$> ts)) as ->; [| done].
      apply bool_decide_ext. rewrite elem_of_cons.
      split; [intros [? | ?]; [congruence | done] | by right].
Qed.

(** X14.  Pending timers always run dry the same way: running as many
    timeouts as there are timers leaves no timer, marks [delivered] every
    stored message that a timer was set for, whoever is connected, and
    changes no other message, no user, no chat and no connection. *)
Theorem timers_mark_delivered (st : Server) :
  let st' := run (replicate (length (timers st)) Timeout) st in
  timers st' = [] ∧ sockets st' = sockets st ∧ users st' = users st ∧
  chats st' = chats st ∧
  ∀ i m, messages st !! i = Some m →
    messages st' !! i =
    Some (if bool_decide (i ∈ t_message <$> timers st)
          then set_status delivered m else m).
Proof.
  destruct (run_timeouts (timers st) st eq_refl) as (Ht & Hs & Hu & Hc & Hm).
  repeat split; try done.
  intros i m Hi. rewrite Hm, Hi. simpl. by case_bool_decide.
Qed.

Lemma timers_mark_delivered_witness :
  let st := run [Receive 7 "s1" (on_send_message (Scenario.hi Scenario.c1));
                 Receive 8 "s2" (on_send_message (Scenario.hi Scenario.c2));
                 Disconnect 9 "s1"; Disconnect 9 "s2"; Disconnect 9 "s3"]
              Scenario.all_connected in
  let st' := run (replicate (length (timers st)) Timeout) st in
  status <$> messages st = [sent; sent] ∧
  connected st = [] ∧
  status <$> messages st' = [delivered; delivered] ∧
  timers st' = [].
Proof.
  intros st st'.
  split; [vm_compute; reflexivity |]. split; [vm_compute; reflexivity |].
  split; [vm_compute; reflexivity |].
  exact (proj1 (timers_mark_delivered st)).
Defined.

(** ** Delivery status when nobody is there to receive *)






(** ** Connections come and go *)

(** X15.  Connecting and then disconnecting a socket undoes the
    connection and leaves a trace in the user's document only: the sockets
    are the ones before, chats, messages and timers are untouched, no other
    user's document changes, and the user is offline with no socket id and
    [lastSeen] at the time of the disconnect.  The offline notice goes to
    every socket connected before. *)
Theorem connect_then_disconnect (now : Z) (sid : string) (decoded : option string)
    (uid : string) (u : User) (st : Server) :
  sockets st !! sid = None →
  socketAuth decoded st = Some (uid, u) →
  let r := step (Disconnect now sid) (server (step (Connect sid decoded) st)) in
  sockets (server r) = sockets st ∧
  users (server r) = <[uid := mkUser (username u) false now None]> (users st) ∧
  chats (server r) = chats st ∧ messages (server r) = messages st ∧
  timers (server r) = timers st ∧
  ∀ x, (x, user_offline uid) ∈ deliveries (server r) (emitted r) ↔
       is_Some (sockets st !! x).
Proof.
  intros Hfresh Hauth r.
  assert (Hu : users st !! uid = Some u).
  { unfold socketAuth in Hauth. destruct decoded as [uid'|]; [| done].
    simpl in Hauth. destruct (users st !! uid') as [u'|] eqn:Hu'; [| done].
    simpl in Hauth. by injection Hauth as -> ->. }
  unfold r. cbn [step]. rewrite Hauth.
  set (st1 := server (connection sid uid u st)).
  set (sk := mkSocket uid (username u)
               ({[sid]} ∪ Chat_find uid
                  (User_findByIdAndUpdate uid
                     (λ r, mkUser (username r) true (lastSeen r) (Some sid)) st))).
  assert (Hsid : sockets st1 !! sid = Some sk) by (simpl; apply lookup_insert_eq).
  rewrite Hsid.
  assert (Hsock : sockets (server (disconnect now sid sk st1)) = sockets st)
    by (simpl; by apply delete_insert_id).
  split; [done |]. split; [| split; [done | split; [done | split; [done |]]]].
  - simpl. apply map_eq. intros v. destruct (decide (uid = v)) as [<- | Hne].
    + by rewrite lookup_alter_eq, lookup_alter_eq, Hu, lookup_insert_eq.
    + by rewrite !lookup_alter_ne, lookup_insert_ne.
  - intros x. cbn [disconnect emitted returned server].
    unfold deliveries. rewrite bind_cons. cbn [deliver mbind list_bind].
    rewrite app_nil_r, list_elem_of_fmap. split.
    + intros (y & [= <-] & Hy). apply elem_of_all_others in Hy as [_ Hy].
      change (is_Some (sockets (server (disconnect now sid sk st1)) !! x)) in Hy.
      by rewrite Hsock in Hy.
    + intros Hx. exists x. split; [done |]. apply elem_of_all_others.
      split; [intros ->; rewrite Hfresh in Hx; by destruct Hx |].
      change (is_Some (sockets (server (disconnect now sid sk st1)) !! x)).
      by rewrite Hsock.
Qed.

Lemma connect_then_disconnect_witness :
  let st := Scenario.all_connected in
  let r := step (Disconnect 9 "s9") (server (step (Connect "s9" (Some "u3")) st)) in
  sockets st !! "s9" = None ∧
  sockets (server r) = sockets st ∧
  users (server r) = <["u3" := mkUser "carol" false 9 None]> (users st).
Proof.
  intros st r.
  assert (Hfresh : sockets st !! "s9" = None) by (vm_compute; reflexivity).
  assert (Hauth : socketAuth (Some "u3") st =
                  Some ("u3", mkUser "carol" true 0 (Some "s3")))
    by (vm_compute; reflexivity).
  destruct (connect_then_disconnect 9 "s9" (Some "u3") "u3" _ st Hfresh Hauth)
    as (Hs & Hu & _).
  split; [exact Hfresh |]. split; [exact Hs | exact Hu].
Defined.

(** X16.  The presence flag can understate.  When a user has two
    connected sockets and one of them disconnects, the user's document says
    offline, with no socket id, although the other socket is still
    connected and still gets the events of its rooms. *)
Theorem disconnect_of_one_of_two (now : Z) (s1 s2 : string) (sk1 sk2 : Socket)
    (u : User) (st : Server) :
  sockets st !! s1 = Some sk1 →
  sockets st !! s2 = Some sk2 →
  s1 ≠ s2 →
  userId sk1 = userId sk2 →
  users st !! userId sk1 = Some u →
  let st' := server (step (Disconnect now s1) st) in
  users st' !! userId sk2 = Some (mkUser (username u) false now None) ∧
  sockets st' !! s2 = Some sk2 ∧
  ∀ s room, s ≠ s2 → room ∈ rooms sk2 → s2 ∈ room_others st' s room.
Proof.
  intros H1 H2 Hne Hsame Hu st'.
  assert (Hs2 : sockets st' !! s2 = Some sk2).
  { unfold st'. cbn [step]. rewrite H1. simpl. by rewrite lookup_delete_ne. }
  split; [| split; [done |]].
  - unfold st'. cbn [step]. rewrite H1, disconnect_users.
    by rewrite decide_True, <- Hsame, Hu.
  - intros s room Hs Hroom. apply elem_of_room_others.
    split; [done |]. by exists sk2.
Qed.

Lemma disconnect_of_one_of_two_witness :
  let st := server (step (Connect "s9" (Some "u1")) Scenario.all_connected) in
  let st' := server (step (Disconnect 8 "s1") st) in
  sockets st !! "s1" = Some Scenario.s1 ∧
  users st' !! "u1" = Some (mkUser "alice" false 8 None) ∧
  is_Some (sockets st' !! "s9").
Proof.
  intros st st'.
  assert (H1 : sockets st !! "s1" = Some Scenario.s1) by (vm_compute; reflexivity).
  assert (H2 : sockets st !! "s9" = Some (mkSocket "u1" "alice" {["s9"; Scenario.c1; Scenario.c2]}))
    by (vm_compute; reflexivity).
  assert (Hu : users st !! userId Scenario.s1 = Some (mkUser "alice" true 0 (Some "s9")))
    by (vm_compute; reflexivity).
  destruct (disconnect_of_one_of_two 8 "s1" "s9" _ _ _ st H1 H2 ltac:(discriminate)
              ltac:(vm_compute; reflexivity) Hu) as (Hoff & Hs & _).
  split; [exact H1 |]. split; [exact Hoff |]. by eexists.
Defined.

(** * The HTTP side: facts *)

(** ** The authorization header *)

Lemma split_space_nonempty s : split_space s ≠ [].
Proof.
  induction s as [| c s IH]; [done |]. simpl.
  destruct (split_space s) as [| w ws]; [done |].
  by destruct (Ascii.eqb c space).
Qed.

Lemma split_space_word w rest :
  space_free w = true →
  split_space (w +:+ String space rest) = w :: split_space rest.
Proof.
  induction w as [| c w IH]; intros Hfree.
  - simpl. pose proof (split_space_nonempty rest).
    by destruct (split_space rest) as [| v vs].
  - simpl in Hfree. apply andb_prop in Hfree as [Hc Hfree].
    apply negb_true_iff in Hc. simpl.
    by rewrite (IH Hfree), Hc.
Qed.

Lemma split_space_free w : space_free w = true → split_space w = [w].
Proof.
  induction w as [| c w IH]; intros Hfree; [done |].
  simpl in Hfree. apply andb_prop in Hfree as [Hc Hfree].
  apply negb_true_iff in Hc. simpl. by rewrite (IH Hfree), Hc.
Qed.

(** X17.  The middleware reads the second word of the header and nothing
    else.  A header of a first word, a space and a non-empty token without
    spaces is accepted exactly when the token verifies, whatever the first
    word is ('Bearer' is not asked for) and whatever follows a further
    space; the request then carries the user id of the token.  No header,
    or a header without a space, is answered 401 and the token is not
    verified. *)
Theorem header_second_word_decides (verify : string → option string)
    (scheme token rest : string) :
  space_free scheme = true →
  space_free token = true →
  token ≠ "" →
  let answer :=
    match verify token with
    | Some userId => ok userId
    | None => rejected 403 "Invalid token"
    end in
  authenticateToken verify (Some (scheme +:+ String space token)) = answer ∧
  authenticateToken verify
    (Some (scheme +:+ String space (token +:+ String space rest))) = answer ∧
  authenticateToken verify None = rejected 401 "Access token required" ∧
  authenticateToken verify (Some scheme) = rejected 401 "Access token required".
Proof.
  intros Hs Ht Hne answer. unfold authenticateToken. simpl.
  rewrite !(split_space_word scheme) by done.
  rewrite (split_space_word token) by done.
  rewrite (split_space_free token), (split_space_free scheme) by done.
  simpl. pose proof (split_space_nonempty rest).
  destruct token as [| c t]; [done |]. done.
Qed.

Lemma header_second_word_decides_witness :
  let verify := λ t, if bool_decide (t = "abc") then Some "u1" else None in
  authenticateToken verify (Some "Basic abc") = ok "u1" ∧
  authenticateToken verify (Some "Bearer abc and more") = ok "u1" ∧
  authenticateToken verify (Some "Bearer") = rejected 401 "Access token required".
Proof.
  intros verify.
  destruct (header_second_word_decides verify "Basic" "abc" "" eq_refl eq_refl
              ltac:(discriminate)) as (H1 & _ & _ & _).
  destruct (header_second_word_decides verify "Bearer" "abc" "and more" eq_refl
              eq_refl ltac:(discriminate)) as (_ & H2 & _ & H3).
  split; [exact H1 |]. split; [exact H2 | exact H3].
Defined.

(** ** Private chats *)

Lemma head_filter_only {A} (P : A → Prop) `{∀ x, Decision (P x)} (l : list A) x :
  x ∈ l → P x → (∀ y, y ∈ l → P y → y = x) → head (filter P l) = Some x.
Proof.
  intros Hin HP Honly.
  destruct (filter P l) as [| y k] eqn:Hf.
  - assert (Hx : x ∈ filter P l) by (by apply list_elem_of_filter).
    rewrite Hf in Hx. by apply elem_of_nil in Hx.
  - simpl. f_equal. assert (Hy : y ∈ filter P l) by (rewrite Hf; by left).
    apply list_elem_of_filter in Hy as [HPy Hy]. by apply Honly.
Qed.

Lemma head_filter_None {A} (P : A → Prop) `{∀ x, Decision (P x)} (l : list A) :
  head (filter P l) = None → ∀ x, x ∈ l → ¬ P x.
Proof.
  intros Hhead x Hin HP.
  assert (Hx : x ∈ filter P l) by (by apply list_elem_of_filter).
  destruct (filter P l); [by apply elem_of_nil in Hx | done].
Qed.



(** X19.  Asking for a private chat with oneself opens somebody else's
    chat.  The filter asks for two participants that include the caller
    and the caller again, so any chat of the caller with one other user
    matches: when the caller has such a chat, no chat is created and the
    answer is one of the caller's two-person chats. *)
Theorem private_chat_with_oneself (fresh me c : string) (chat : Chat) (a : Api) :
  chats (engine a) !! c = Some chat →
  length (participants chat) = 2 →
  me ∈ participants chat →
  isGroup (meta_of c a) = false →
  ∃ c' chat',
    api_chats fresh me (private_chat me) a = (a, formattedChat me c' chat' a) ∧
    chats (engine a) !! c' = Some chat' ∧
    length (participants chat') = 2 ∧ me ∈ participants chat'.
Proof.
  intros Hc Hlen Hme Hgroup. unfold api_chats.
  destruct (Chat_findOne me me a) as [[c' chat']|] eqn:Hfind.
  - exists c', chat'. split; [done |].
    unfold Chat_findOne in Hfind.
    apply head_Some_elem_of, list_elem_of_filter in Hfind as [(Hl & Hin & _ & _) Hel].
    apply elem_of_map_to_list in Hel. done.
  - exfalso. apply (head_filter_None _ _ Hfind (c, chat)).
    + by apply elem_of_map_to_list.
    + by repeat split.
Qed.

Lemma private_chat_with_oneself_witness :
  let a := mkApi Scenario.all_connected ∅ ∅ in
  api_chats Scenario.c9 "u1" (private_chat "u1") a =
    (a, formattedChat "u1" Scenario.c2 (mkChat ["u1"; "u2"] None) a) ∧
  ∃ c' chat', chats (engine a) !! c' = Some chat' ∧ "u1" ∈ participants chat'.
Proof.
  intros a. split; [vm_compute; reflexivity |].
  destruct (private_chat_with_oneself Scenario.c9 "u1" Scenario.c2 (mkChat ["u1"; "u2"] None) a)
    as (c' & chat' & _ & Hc' & _ & Hin).
  - vm_compute. reflexivity.
  - reflexivity.
  - apply list_elem_of_here.
  - reflexivity.
  - by exists c', chat'.
Defined.

(** ** A chat made while its participants are connected *)



(** ** Logging in over HTTP *)

(** X21.  The login route sets [online] and nothing else.  With the right
    password for the one account of an email, the answer carries the token
    and the profile, and the user's document is online with the socket id
    it had; connections, chats and messages are untouched.  So a user
    without a connected socket is then online in the documents with no
    connection behind it, and the presence invariant of the socket layer
    does not hold in that state.  With a wrong password the answer is 400
    and nothing changes. *)
Theorem login_sets_online_only (sign : string → string)
    (compare : string → string → bool) (uid p : string) (acc : Account)
    (u : User) (a : Api) :
  accounts a !! uid = Some acc →
  users (engine a) !! uid = Some u →
  (∀ uid' acc', accounts a !! uid' = Some acc' → email acc' = email acc →
                uid' = uid) →
  let r := api_login sign compare (email acc) p a in
  (compare p (password acc) = true →
   r.2 = ok (sign uid,
             mkProfile uid (username u) (Some (email acc)) (Some (avatar acc)) true) ∧
   users (engine r.1) =
     <[uid := mkUser (username u) true (lastSeen u) (socketId u)]> (users (engine a)) ∧
   sockets (engine r.1) = sockets (engine a) ∧
   chats (engine r.1) = chats (engine a) ∧
   messages (engine r.1) = messages (engine a) ∧
   ((∀ x skx, sockets (engine a) !! x = Some skx → userId skx ≠ uid) →
    online_without_connection (engine r.1) uid ∧ ¬ presence_inv (engine r.1))) ∧
  (compare p (password acc) = false →
   r = (a, rejected 400 "Invalid credentials")).
Proof.
  intros Hacc Hu Hunique r.
  assert (Hfind : User_findOne (email acc) a = Some uid).
  { unfold User_findOne.
    rewrite (head_filter_only _ _ (uid, acc)); [done | | |].
    - by apply elem_of_map_to_list.
    - simpl. split; [done |]. by rewrite Hu.
    - intros [uid' acc'] Hin [He _]. apply elem_of_map_to_list in Hin.
      simpl in He. assert (uid' = uid) as -> by (by apply (Hunique uid' acc')).
      rewrite Hacc in Hin. by injection Hin as ->. }
  unfold r, api_login. rewrite Hfind, Hu, Hacc. split.
  - intros ->. cbn [fst snd engine with_users users sockets chats messages].
    assert (Husers : alter (λ r0, mkUser (username r0) true (lastSeen r0) (socketId r0))
                       uid (users (engine a)) =
                     <[uid := mkUser (username u) true (lastSeen u) (socketId u)]>
                       (users (engine a))).
    { apply map_eq. intros v. destruct (decide (uid = v)) as [<- | Hne].
      - by rewrite lookup_alter_eq, Hu, lookup_insert_eq.
      - by rewrite lookup_alter_ne, lookup_insert_ne. }
    rewrite Husers. do 5 (split; [done |]).
    intros Hnoconn.
    assert (Hget : users (with_users
                     (alter (λ r0, mkUser (username r0) true (lastSeen r0) (socketId r0))
                        uid) (engine a)) !! uid =
                   Some (mkUser (username u) true (lastSeen u) (socketId u))).
    { cbn [with_users users]. rewrite Husers. apply lookup_insert_eq. }
    split.
    + split; [by eexists | done].
    + intros Hinv.
      destruct (Hinv uid _ Hget) as (x & skx & _ & Hx & Hux); [done |].
      by apply (Hnoconn x skx).
  - by intros ->.
Qed.

Lemma login_sets_online_only_witness :
  let a := mkApi Scenario.db ∅ {["u1" := mkAccount "alice@example.com" "hash" "A"]} in
  let compare := λ p h : string, bool_decide (h = "hash" ∧ p = "secret") in
  let r := api_login (λ uid, "token:" +:+ uid) compare "alice@example.com" "secret" a in
  presence_inv (engine a) ∧
  users (engine r.1) !! "u1" = Some (mkUser "alice" true 0 None) ∧
  ¬ presence_inv (engine r.1).
Proof.
  intros a compare r.
  destruct (login_sets_online_only (λ uid, "token:" +:+ uid) compare "u1" "secret"
              (mkAccount "alice@example.com" "hash" "A") (Scenario.offline "alice") a)
    as [Hright _].
  - reflexivity.
  - reflexivity.
  - intros uid' acc' Hin _. unfold a in Hin. simpl in Hin.
    by apply lookup_singleton_Some in Hin as [<- _].
  - destruct (Hright eq_refl) as (_ & Hu & _ & _ & _ & Hbreak).
    split; [exact Scenario_db_presence |]. split; [vm_compute; reflexivity |].
    refine (proj2 (Hbreak _)).
    intros x skx Hx. unfold a in Hx. simpl in Hx. by rewrite lookup_empty in Hx.
Defined.
